(** * fix_progress.py: the substitution pipeline and the script around it

    The script reads [src/progress.rs], applies seven [re.sub] calls in a
    fixed order and writes the result back.  This file embeds

    - the fragment of Python's [re] engine the seven patterns use
      (literal runs, one capture group, a greedy [\w+], a lazy [.*?]),
      as a backtracking matcher in continuation-passing style;
    - [re.sub] as the left-to-right scan for non-overlapping matches;
    - the seven pattern/template pairs, transcribed from the source;
    - the module body as a small state-and-exception monad over a file
      store and standard output.

    A Python [str] is a sequence of Unicode code points; a text is a list of
    code points here.  [\w] on code points below 128 is fixed ([[a-zA-Z0-9_]]);
    above, it follows the Unicode database of the interpreter, which is a
    parameter [uni] of everything that mentions [\w]. *)

From Stdlib Require Import NArith Ascii String List Lia Bool Arith.
From stdpp Require Import gmap strings.
Import ListNotations.

Local Open Scope N_scope.
Local Open Scope nat_scope.
Local Open Scope list_scope.

(** ** Texts *)

Definition char := N.
Definition text := list char.

(** The code points of an ASCII literal. *)
Definition codes (s : string) : text :=
  map N_of_ascii (list_ascii_of_string s).

Definition newline : char := 10%N.

(** ** Character classes *)

Definition charset := char -> bool.

(** [.] without [re.DOTALL]: anything but a line feed. *)
Definition dot : charset := fun c => negb (N.eqb c newline).

Definition ascii_word (c : char) : bool :=
  (N.leb 48 c && N.leb c 57) || (N.leb 65 c && N.leb c 90)
  || N.eqb c 95 || (N.leb 97 c && N.leb c 122).

(** [\w] of a [str] pattern: alphanumerics and the underscore. *)
Definition word (uni : charset) : charset :=
  fun c => if N.ltb c 128 then ascii_word c else uni c.

(** ** Patterns and templates *)

Inductive regex : Type :=
| Str (l : text)                 (* a run of literal characters *)
| Cat (r1 r2 : regex)            (* r1 r2 *)
| Group (i : nat) (r : regex)    (* ( r ), numbered i *)
| MaxPlus (cs : charset)         (* cs+   greedy *)
| MinStar (cs : charset).        (* cs*?  lazy *)

Inductive titem : Type :=
| TLit (l : text)                (* literal text of the template *)
| TRef (i : nat).                (* \i *)

Definition template := list titem.

(** Captured groups, most recent binding first. *)
Definition caps := list (nat * text).

Fixpoint group (i : nat) (g : caps) : text :=
  match g with
  | [] => []
  | (j, x) :: g' => if Nat.eqb i j then x else group i g'
  end.

Definition expand_item (g : caps) (it : titem) : text :=
  match it with
  | TLit l => l
  | TRef i => group i g
  end.

Definition expand (tpl : template) (g : caps) : text :=
  concat (map (expand_item g) tpl).

(** ** The backtracking matcher

    A continuation receives the text the sub-pattern consumed, the text that
    remains and the groups; [None] makes the matcher try its next
    alternative. *)

Fixpoint strip_prefix (l s : text) : option text :=
  match l, s with
  | [], _ => Some s
  | a :: l', b :: s' => if N.eqb a b then strip_prefix l' s' else None
  | _ :: _, [] => None
  end.

Section Matcher.
Context {R : Type}.

(** [cs*], longest first. *)
Fixpoint max_star (cs : charset) (s : text)
    (k : text -> text -> option R) : option R :=
  match s with
  | c :: s' =>
      if cs c then
        match max_star cs s' (fun x r => k (c :: x) r) with
        | Some v => Some v
        | None => k [] s
        end
      else k [] s
  | [] => k [] []
  end.

Definition max_plus (cs : charset) (s : text)
    (k : text -> text -> option R) : option R :=
  match s with
  | c :: s' => if cs c then max_star cs s' (fun x r => k (c :: x) r) else None
  | [] => None
  end.

(** [cs*?], shortest first. *)
Fixpoint min_star (cs : charset) (s : text)
    (k : text -> text -> option R) : option R :=
  match k [] s with
  | Some v => Some v
  | None =>
      match s with
      | c :: s' => if cs c then min_star cs s' (fun x r => k (c :: x) r) else None
      | [] => None
      end
  end.

Fixpoint rmatch (r : regex) (s : text) (g : caps)
    (k : text -> text -> caps -> option R) : option R :=
  match r with
  | Str l =>
      match strip_prefix l s with
      | Some s' => k l s' g
      | None => None
      end
  | Cat a b =>
      rmatch a s g (fun x s1 g1 =>
        rmatch b s1 g1 (fun y s2 g2 => k (x ++ y) s2 g2))
  | Group i a => rmatch a s g (fun x s1 g1 => k x s1 ((i, x) :: g1))
  | MaxPlus cs => max_plus cs s (fun x s1 => k x s1 g)
  | MinStar cs => min_star cs s (fun x s1 => k x s1 g)
  end.
End Matcher.

(** A match anchored at the head of [s]: the matched text, the rest, the
    groups. *)
Definition match_at (p : regex) (s : text) : option (text * text * caps) :=
  rmatch p s [] (fun x s' g => Some (x, s', g)).

(** ** re.sub

    The scan tries the pattern at each position from the left; a match is
    replaced by the expanded template and the scan resumes after it.  A
    match of the empty string is replaced and one character is copied, as
    Python 3.7 and later do.  At most one character is dropped from the
    text per unit of fuel, so the length of the text is fuel enough. *)

Fixpoint sub_scan (fuel : nat) (p : regex) (tpl : template) (s : text) : text :=
  match s with
  | [] =>
      match match_at p [] with
      | Some (_, _, g) => expand tpl g
      | None => []
      end
  | c :: s' =>
      match fuel with
      | O => s
      | S fuel' =>
          match match_at p s with
          | Some ([], _, g) => expand tpl g ++ c :: sub_scan fuel' p tpl s'
          | Some (_ :: _, rest, g) => expand tpl g ++ sub_scan fuel' p tpl rest
          | None => c :: sub_scan fuel' p tpl s'
          end
      end
  end.

Definition re_sub (p : regex) (tpl : template) (s : text) : text :=
  sub_scan (length s) p tpl s.

(** ** The seven substitutions of the script *)

(** [r'pub fn (\w+)\(&mut self'] and [r'pub fn \1(&self']. *)
Definition sig_pattern (uni : charset) : regex :=
  Cat (Str (codes "pub fn "))
      (Cat (Group 1 (MaxPlus (word uni))) (Str (codes "(&mut self"))).

Definition sig_template : template :=
  [TLit (codes "pub fn "); TRef 1; TLit (codes "(&self")].

(** The three fields the script knows. *)
Inductive field : Type := main_bar | content_bar | rename_bar.

Definition field_name (f : field) : text :=
  match f with
  | main_bar => codes "main_bar"
  | content_bar => codes "content_bar"
  | rename_bar => codes "rename_bar"
  end.

(** [r'self\.F = Some\((.*?)\)'] and [r'*self.F.borrow_mut() = Some(\1)']. *)
Definition assign_prefix (f : field) : text :=
  codes "self." ++ field_name f ++ codes " = Some(".

Definition assign_pattern (f : field) : regex :=
  Cat (Str (assign_prefix f))
      (Cat (Group 1 (MinStar dot)) (Str (codes ")"))).

Definition assign_head (f : field) : text :=
  codes "*self." ++ field_name f ++ codes ".borrow_mut() = Some(".

Definition assign_template (f : field) : template :=
  [TLit (assign_head f); TRef 1; TLit (codes ")")].

(** [r'if let Some\(pb\) = &self\.F'] and
    [r'if let Some(pb) = self.F.borrow().as_ref()']. *)
Definition iflet_text (f : field) : text :=
  codes "if let Some(pb) = &self." ++ field_name f.

Definition iflet_pattern (f : field) : regex := Str (iflet_text f).

Definition iflet_repl (f : field) : text :=
  codes "if let Some(pb) = self." ++ field_name f ++ codes ".borrow().as_ref()".

Definition iflet_template (f : field) : template := [TLit (iflet_repl f)].

Definition fix_signatures (uni : charset) : text -> text :=
  re_sub (sig_pattern uni) sig_template.

Definition fix_assign (f : field) : text -> text :=
  re_sub (assign_pattern f) (assign_template f).

Definition fix_iflet (f : field) : text -> text :=
  re_sub (iflet_pattern f) (iflet_template f).

(** The body of the script between the read and the write. *)
Definition pipeline (uni : charset) (content : text) : text :=
  let content := fix_signatures uni content in
  let content := fix_assign main_bar content in
  let content := fix_assign content_bar content in
  let content := fix_assign rename_bar content in
  let content := fix_iflet main_bar content in
  let content := fix_iflet content_bar content in
  let content := fix_iflet rename_bar content in
  content.

(** ** The script: read, substitute, write, report *)

(** The exceptions [open] and [write] raise. *)
Inductive exn : Type := FileNotFoundError | PermissionError | OSError.

(** A file: its text, as [f.read()] returns it in text mode and as
    [f.write] takes it (decoding and line ends are the interpreter's), and
    whether it may be read and written. *)
Record file : Type := File { data : text; readable : bool; writable : bool }.

(** The file store by path, the room left on the device ([None]: no
    limit), and what was printed so far. *)
Record world : Type := World {
  fs : gmap string file;
  room : option nat;
  stdout : list text }.

Definition IO (A : Type) : Type := world -> (exn + A) * world.

#[global] Instance IO_ret : MRet IO := fun A a w => (inr a, w).

#[global] Instance IO_bind : MBind IO := fun A B k m w =>
  match m w with
  | (inr a, w') => k a w'
  | (inl e, w') => (inl e, w')
  end.

(** [with open(path, 'r') as f: f.read()] *)
Definition read_file (path : string) : IO text :=
  fun w =>
    match fs w !! path with
    | None => (inl FileNotFoundError, w)
    | Some f => if readable f then (inr (data f), w) else (inl PermissionError, w)
    end.

(** [open(path, 'w')]: the file is created or emptied. *)
Definition open_w (path : string) : IO unit :=
  fun w =>
    match fs w !! path with
    | None => (inr tt, World (<[path := File [] true true]> (fs w)) (room w) (stdout w))
    | Some f =>
        if writable f
        then (inr tt, World (<[path := File [] (readable f) true]> (fs w))
                        (room w) (stdout w))
        else (inl PermissionError, w)
    end.

(** [f.write(s)] and the flush when the [with] block is left: what fits on
    the device is stored; the rest is an error. *)
Definition write (path : string) (s : text) : IO unit :=
  fun w =>
    match fs w !! path with
    | None => (inl OSError, w)
    | Some f =>
        let put (k : nat) (r : option nat) :=
          World (<[path := File (data f ++ firstn k s) (readable f) (writable f)]> (fs w))
            r (stdout w) in
        match room w with
        | None => (inr tt, put (length s) None)
        | Some n =>
            if Nat.leb (length s) n
            then (inr tt, put (length s) (Some (n - length s)))
            else (inl OSError, put n (Some 0))
        end
    end.

(** [with open(path, 'w') as f: f.write(s)] *)
Definition write_file (path : string) (s : text) : IO unit :=
  open_w path ;; write path s.

(** [print(line)] *)
Definition print (line : text) : IO unit :=
  fun w => (inr tt, World (fs w) (room w) (stdout w ++ [line])).

Definition target : string := "src/progress.rs".

Definition confirmation : text := codes "Fixed progress.rs methods".

(** The module body. *)
Definition main (uni : charset) : IO unit :=
  content ← read_file target;
  write_file target (pipeline uni content);;
  print confirmation.

(** An exception nobody catches ends the interpreter with status 1. *)
Definition exit_status {A} (r : exn + A) : nat :=
  match r with inr _ => 0 | inl _ => 1 end.

Definition run (uni : charset) (w : world) : nat * world :=
  (exit_status (fst (main uni w)), snd (main uni w)).

(** * Vocabulary of the statements *)

(** ** Occurrences of the patterns in a text *)

(** No line feed. *)
Definition one_line (x : text) : Prop := forallb dot x = true.

(** A method name: one or more word characters. *)
Definition is_name (uni : charset) (w : text) : Prop :=
  w <> [] /\ forallb (word uni) w = true.

(** [pub fn NAME(&mut self] occurs in the text. *)
Definition has_sig (uni : charset) (t : text) : Prop :=
  exists l name v,
    t = l ++ codes "pub fn " ++ name ++ codes "(&mut self" ++ v /\
    is_name uni name.

(** [self.F = Some(], then a [)] later on the line, occurs in the text. *)
Definition has_assign (f : field) (t : text) : Prop :=
  exists l x v,
    t = l ++ assign_prefix f ++ x ++ codes ")" ++ v /\ one_line x.

(** [if let Some(pb) = &self.F] occurs in the text. *)
Definition has_iflet (f : field) (t : text) : Prop :=
  exists l v, t = l ++ iflet_text f ++ v.

(** A [)] comes before any line feed. *)
Definition closes (z : text) : Prop :=
  exists y v, z = y ++ codes ")" ++ v /\ one_line y.

(** Two [self.F = Some(] of one field with neither [)] nor line feed
    between them: the second lies in what the group of the first captures. *)
Definition doubled (f : field) (t : text) : Prop :=
  exists l x v,
    t = l ++ assign_prefix f ++ x ++ assign_prefix f ++ v /\
    one_line x /\ ~ In 41%N x.

(** The literal [q] occurs in the text. *)
Definition has_text (q t : text) : Prop := exists l v, t = l ++ q ++ v.

(** The text has none of the seven patterns. *)
Definition untouched (uni : charset) (t : text) : Prop :=
  ~ has_sig uni t /\ (forall f, ~ has_assign f t) /\ (forall f, ~ has_iflet f t).

(** ** Matches along a text *)

(** A pattern none of whose matches is empty. *)
Definition nonempty_hits (p : regex) : Prop :=
  forall s m rest g, match_at p s = Some (m, rest, g) -> m <> [].

(** The pattern matches at the head of the text ([re.match] succeeds). *)
Definition hits (p : regex) (s : text) : bool :=
  match match_at p s with Some _ => true | None => false end.

(** [Q] holds at the head of no suffix of the text. *)
Definition free_of (Q : text -> bool) (s : text) : Prop :=
  forall l r, s = l ++ r -> Q r = false.

(** [Q] holds at no position of [c ++ s] that lies in [c]. *)
Definition clean_to (Q : text -> bool) (c s : text) : Prop :=
  forall l r, c = l ++ r -> r <> [] -> Q (r ++ s) = false.

(** [re.search] finds nothing. *)
Fixpoint found (Q : text -> bool) (s : text) : bool :=
  Q s || match s with [] => false | _ :: s' => found Q s' end.

(** The literal [q] is a prefix of the text. *)
Definition starts_with (q s : text) : bool :=
  match strip_prefix q s with Some _ => true | None => false end.

(** ** Lines *)

(** A pattern is blind to line feeds when no literal of it holds one and
    none of its classes accepts one; a template, when its literal text has
    none. *)
Definition has_newline (l : text) : bool := existsb (N.eqb newline) l.

Fixpoint blind (r : regex) : bool :=
  match r with
  | Str l => negb (has_newline l)
  | Cat a b => blind a && blind b
  | Group _ a => blind a
  | MaxPlus cs | MinStar cs => negb (cs newline)
  end.

Definition blind_item (it : titem) : bool :=
  match it with
  | TLit l => negb (has_newline l)
  | TRef _ => true
  end.

Definition blind_template (tpl : template) : bool := forallb blind_item tpl.

(** [str.split('\n')]. *)
Fixpoint lines (s : text) : list text :=
  match s with
  | [] => [[]]
  | c :: s' =>
      if N.eqb c newline then [] :: lines s'
      else match lines s' with
           | l :: ls => (c :: l) :: ls
           | [] => [[c]]
           end
  end.

(** [l1 \n l2 \n ... ln] *)
Fixpoint unlines (ls : list text) : text :=
  match ls with
  | [] => []
  | [l] => l
  | l :: ls' => l ++ newline :: unlines ls'
  end.

(** No captured text holds a line feed. *)
Definition caps_lines (g : caps) : Prop :=
  Forall (fun ix => one_line (snd ix)) g.

(** ** Outcomes of a run *)




(** ** The patterns in direct style *)

(** The longest prefix of the text in the class, and the rest. *)
Fixpoint span (cs : charset) (s : text) : text * text :=
  match s with
  | c :: s' => if cs c then (c :: fst (span cs s'), snd (span cs s')) else ([], s)
  | [] => ([], [])
  end.

(** The text before the first [stop] and the text behind it, when only
    characters of the class come before it. *)
Fixpoint scan_to (cs : charset) (stop : char) (s : text) : option (text * text) :=
  match s with
  | [] => None
  | c :: s' =>
      if N.eqb c stop then Some ([], s')
      else if cs c then
        match scan_to cs stop s' with
        | Some (x, r) => Some (c :: x, r)
        | None => None
        end
      else None
  end.

(** [pub fn ], the longest run of word characters (at least one), and
    [(&mut self]. *)
Definition sig_match (uni : charset) (s : text) : option (text * text * caps) :=
  match strip_prefix (codes "pub fn ") s with
  | Some s1 =>
      match span (word uni) s1 with
      | ([], _) => None
      | (c :: w, s2) =>
          match strip_prefix (codes "(&mut self") s2 with
          | Some v =>
              Some (codes "pub fn " ++ (c :: w) ++ codes "(&mut self", v,
                    [(1, c :: w)])
          | None => None
          end
      end
  | None => None
  end.

(** The prefix, the text up to the first [)] if no line feed comes before
    it, and that [)]. *)
Definition assign_match (f : field) (s : text) : option (text * text * caps) :=
  match strip_prefix (assign_prefix f) s with
  | Some s1 =>
      match scan_to dot 41%N s1 with
      | Some (x, v) => Some (assign_prefix f ++ x ++ codes ")", v, [(1, x)])
      | None => None
      end
  | None => None
  end.

Definition iflet_match (f : field) (s : text) : option (text * text * caps) :=
  match strip_prefix (iflet_text f) s with
  | Some v => Some (iflet_text f, v, [])
  | None => None
  end.

(** Neither [)] nor line feed. *)
Definition plain (c : char) : bool := dot c && negb (N.eqb c 41).

(** [doubled], decided at the head of the text. *)
Definition doubled_at (f : field) (s : text) : bool :=
  match strip_prefix (assign_prefix f) s with
  | Some z => found (starts_with (assign_prefix f)) (fst (span plain z))
  | None => false
  end.

(** ** Literals that cannot overlap *)

(** The two texts differ at a position both have. *)
Fixpoint clash (a b : text) : bool :=
  match a, b with
  | x :: a', y :: b' => if N.eqb x y then clash a' b' else true
  | _, _ => false
  end.

(** Every suffix of [q] that starts at [lo] or later (and is not empty)
    clashes with [r]. *)
Definition tails_clash (lo : nat) (q r : text) : bool :=
  forallb (fun k => clash (skipn k q) r) (seq lo (length q - lo)).

(** [q] clashes with every non-empty suffix of [r]. *)
Definition clash_tails (q r : text) : bool :=
  forallb (fun j => clash q (skipn j r)) (seq 0 (length r)).

(** The replacement text [r] can neither run into a declaration
    [pub fn NAME(&mut self] that starts to its left, nor be part of its
    name. *)
Definition sig_apart (r : text) : bool :=
  tails_clash 1 (codes "pub fn ") r &&
  tails_clash 0 (codes "(&mut self") r &&
  match span ascii_word r with
  | (_, []) => false
  | ([], c :: _) => N.ltb c 128
  | (_ :: _, c :: rr) => N.ltb c 128 && clash (codes "(&mut self") (c :: rr)
  end.

(** One replacement: [m], between [u] and [rest], becomes [r].

    [carried]: a match of [Q] that starts in [u] in the new text was one in
    the old text.  [left_local]: a match of [Q] that starts left of [r]
    ends left of it (so it is carried, whatever [m] was).  [not_inside]: no
    match of [Q] starts inside [r]. *)
Definition carried (Q : text -> bool) (m r u rest : text) : Prop :=
  forall l d, u = l ++ d -> d <> [] ->
    Q (d ++ r ++ rest) = true -> Q (d ++ m ++ rest) = true.

Definition left_local (Q : text -> bool) (r : text) : Prop :=
  forall d v, d <> [] -> Q (d ++ r ++ v) = true -> forall v', Q (d ++ v') = true.

Definition not_inside (Q : text -> bool) (r : text) : Prop :=
  forall l h v, r = l ++ h -> h <> [] -> Q (h ++ v) = false.

(** ** Replacements counted, tables compared *)

(** The number of replacements the scan makes: the count [re.subn] returns
    beside the text. *)
Fixpoint count_scan (fuel : nat) (p : regex) (s : text) : nat :=
  match s with
  | [] =>
      match match_at p [] with
      | Some _ => 1
      | None => 0
      end
  | c :: s' =>
      match fuel with
      | O => 0
      | S fuel' =>
          match match_at p s with
          | Some ([], _, _) => S (count_scan fuel' p s')
          | Some (_ :: _, rest, _) => S (count_scan fuel' p rest)
          | None => count_scan fuel' p s'
          end
      end
  end.

Definition re_count (p : regex) (s : text) : nat := count_scan (length s) p s.

(** The two tables agree on the code points of the text from 128 on, the
    only ones [\w] looks up in them. *)
Definition same_on (uni uni' : charset) (t : text) : Prop :=
  forall c, In c t -> (128 <= c)%N -> uni c = uni' c.

(** ** Texts and worlds of the examples *)

(** A table under which no code point from 128 on is a word character. *)
Definition ascii_only : charset := fun _ => false.


Definition multiline_assignment : text :=
  unlines [codes "self.main_bar = Some("; codes "    make_bar()"; codes ");"].

Definition fixture : text := unlines (map codes [
  "impl ProgressTracker {";
  "    pub fn start(&mut self, total: u64) {";
  "        self.main_bar = Some(make_bar(total));";
  "        self.content_bar = Some(make_bar(0));";
  "        self.rename_bar = Some(make_bar(0));";
  "    }";
  "    fn reset(&mut self) {";
  "        self.count = Some(0);";
  "        if let Some(pb) = &self.rename_bar {";
  "            pb.finish();";
  "        }";
  "    }";
  "}"]%string).



Definition empty_world : world := World ∅ None [].

Definition locked_world : world :=
  World {[ target := File (codes "pub fn a(&mut self)") true false ]} None [].


(** * Properties *)

(** ** Lists and literal prefixes *)

Lemma strip_prefix_app (l s : text) : strip_prefix l (l ++ s) = Some s.
Proof.
  induction l as [|a l IH]; simpl; [reflexivity|].
  now rewrite N.eqb_refl.
Qed.

Lemma strip_prefix_inv (l s s' : text) :
  strip_prefix l s = Some s' -> s = l ++ s'.
Proof.
  revert s; induction l as [|a l IH]; intros s H; simpl in *.
  - now inversion H.
  - destruct s as [|b s]; [discriminate|].
    destruct (N.eqb_spec a b) as [->|]; [|discriminate].
    now rewrite (IH _ H).
Qed.

(** Two ways to cut one list: one cut is inside the other's left part. *)
Lemma app_cut (l r u w : text) :
  l ++ r = u ++ w ->
  (exists d, u = l ++ d /\ r = d ++ w) \/
  (exists d, d <> [] /\ l = u ++ d /\ w = d ++ r).
Proof.
  revert u; induction l as [|a l IH]; intros u H; simpl in *.
  - left. now exists u.
  - destruct u as [|b u]; simpl in *.
    + right. exists (a :: l). repeat split; [discriminate | now symmetry].
    + injection H as -> H. destruct (IH _ H) as [(d & -> & ->)|(d & Hd & -> & ->)].
      * left. now exists d.
      * right. now exists d.
Qed.

(** ** The matcher *)

(** Whatever the matcher hands to its continuation splits the input. *)
Lemma max_star_split {R} cs s (k : text -> text -> option R) v :
  max_star cs s k = Some v -> exists x s', s = x ++ s' /\ k x s' = Some v.
Proof.
  revert k; induction s as [|c s IH]; intros k H; simpl in H.
  - now exists [], [].
  - destruct (cs c).
    + destruct (max_star cs s _) eqn:E.
      * injection H as ->. destruct (IH _ E) as (x & s' & -> & Hk).
        now exists (c :: x), s'.
      * now exists [], (c :: s).
    + now exists [], (c :: s).
Qed.

Lemma min_star_split {R} cs s (k : text -> text -> option R) v :
  min_star cs s k = Some v -> exists x s', s = x ++ s' /\ k x s' = Some v.
Proof.
  revert k; induction s as [|c s IH]; intros k H; simpl in H.
  - destruct (k [] []) eqn:E; [|discriminate].
    injection H as ->. now exists [], [].
  - destruct (k [] (c :: s)) eqn:E.
    + injection H as ->. now exists [], (c :: s).
    + destruct (cs c); [|discriminate].
      destruct (IH _ H) as (x & s' & -> & Hk). now exists (c :: x), s'.
Qed.

Lemma rmatch_split {R} r : forall s g (k : text -> text -> caps -> option R) v,
  rmatch r s g k = Some v ->
  exists x s' g', s = x ++ s' /\ k x s' g' = Some v.
Proof.
  induction r as [l|a IHa b IHb|i a IHa|cs|cs]; intros s g k v H; simpl in H.
  - destruct (strip_prefix l s) as [s'|] eqn:E; [|discriminate].
    exists l, s', g. split; [now apply strip_prefix_inv|assumption].
  - destruct (IHa _ _ _ _ H) as (x & s1 & g1 & -> & H1).
    destruct (IHb _ _ _ _ H1) as (y & s2 & g2 & -> & H2).
    exists (x ++ y), s2, g2. split; [now rewrite app_assoc|assumption].
  - destruct (IHa _ _ _ _ H) as (x & s1 & g1 & -> & H1).
    now exists x, s1, ((i, x) :: g1).
  - unfold max_plus in H. destruct s as [|c s]; [discriminate|].
    destruct (cs c); [|discriminate].
    destruct (max_star_split _ _ _ _ H) as (x & s' & -> & Hk).
    now exists (c :: x), s', g.
  - destruct (min_star_split _ _ _ _ H) as (x & s' & -> & Hk).
    now exists x, s', g.
Qed.

Lemma match_at_split p s m rest g :
  match_at p s = Some (m, rest, g) -> s = m ++ rest.
Proof.
  intros H. destruct (rmatch_split _ _ _ _ _ H) as (x & s' & g' & -> & E).
  now inversion E.
Qed.

Lemma span_app cs s : fst (span cs s) ++ snd (span cs s) = s.
Proof.
  induction s as [|c s IH]; simpl; [reflexivity|].
  destruct (cs c); simpl; [now rewrite IH|reflexivity].
Qed.

Lemma span_all cs s : forallb cs (fst (span cs s)) = true.
Proof.
  induction s as [|c s IH]; simpl; [reflexivity|].
  destruct (cs c) eqn:E; simpl; [now rewrite E|reflexivity].
Qed.

Lemma span_stop cs w c v :
  forallb cs w = true -> cs c = false -> span cs (w ++ c :: v) = (w, c :: v).
Proof.
  intros Hw Hc. induction w as [|a w IH]; simpl in *.
  - now rewrite Hc.
  - apply andb_prop in Hw as [Ha Hw]. rewrite Ha, (IH Hw). reflexivity.
Qed.

(** A greedy run followed by something that refuses to start with a
    character of the class never has to give a character back. *)
Lemma max_star_span {R} cs s (k : text -> text -> option R) :
  (forall x c r, cs c = true -> k x (c :: r) = None) ->
  max_star cs s k = k (fst (span cs s)) (snd (span cs s)).
Proof.
  revert k; induction s as [|c s IH]; intros k Hk; simpl; [reflexivity|].
  destruct (cs c) eqn:E; simpl; [|reflexivity].
  rewrite IH by (intros; now apply Hk).
  destruct (k _ _) eqn:E'; [reflexivity|]. now apply Hk.
Qed.

(** A lazy run up to a closing literal stops at the first one. *)
Lemma min_star_scan {R} cs stop s (F : text -> text -> R) :
  min_star cs s (fun x r =>
    match strip_prefix [stop] r with Some v => Some (F x v) | None => None end)
  = match scan_to cs stop s with Some (x, v) => Some (F x v) | None => None end.
Proof.
  revert F; induction s as [|c s IH]; intros F; [reflexivity|].
  cbn [min_star scan_to]. change (strip_prefix [stop] (c :: s))
    with (if N.eqb stop c then Some s else None).
  rewrite (N.eqb_sym stop c). destruct (N.eqb c stop); [reflexivity|].
  destruct (cs c); [|reflexivity].
  rewrite (IH (fun x r => F (c :: x) r)).
  now destruct (scan_to cs stop s) as [[x r]|].
Qed.

Lemma scan_to_inv cs stop s x v :
  scan_to cs stop s = Some (x, v) ->
  s = x ++ stop :: v /\ forallb cs x = true /\ ~ In stop x.
Proof.
  revert x; induction s as [|c s IH]; intros x H; simpl in H; [discriminate|].
  destruct (N.eqb_spec c stop) as [->|Hne].
  - injection H as <- <-. repeat split. intros [].
  - destruct (cs c) eqn:E; [|discriminate].
    destruct (scan_to cs stop s) as [[x' r]|]; [|discriminate].
    injection H as <- <-. destruct (IH _ eq_refl) as (-> & Hx & Hn).
    repeat split; simpl; [now rewrite E|]. intros [H|H]; [now apply Hne|now apply Hn].
Qed.

Lemma scan_to_app cs stop x v :
  forallb cs x = true -> ~ In stop x ->
  scan_to cs stop (x ++ stop :: v) = Some (x, v).
Proof.
  intros Hx Hn. induction x as [|c x IH]; simpl in *.
  - now rewrite N.eqb_refl.
  - apply andb_prop in Hx as [Hc Hx].
    destruct (N.eqb_spec c stop) as [->|_]; [exfalso; now apply Hn; left|].
    rewrite Hc, IH; [reflexivity|assumption|]. intros H; apply Hn; now right.
Qed.

(** A hit needs a closing literal before the class is left. *)
Lemma scan_to_some cs stop x v :
  forallb cs x = true -> scan_to cs stop (x ++ stop :: v) <> None.
Proof.
  intros Hx. induction x as [|c x IH]; simpl in *.
  - now rewrite N.eqb_refl.
  - apply andb_prop in Hx as [Hc Hx].
    destruct (N.eqb c stop); [discriminate|]. rewrite Hc.
    specialize (IH Hx). now destruct (scan_to cs stop (x ++ stop :: v)) as [[? ?]|].
Qed.

(** ** What each pattern matches, in direct style *)

Lemma word_paren uni : word uni 40%N = false.
Proof. reflexivity. Qed.

Lemma match_at_sig uni s : match_at (sig_pattern uni) s = sig_match uni s.
Proof.
  unfold match_at, sig_pattern, sig_match. cbn [rmatch].
  destruct (strip_prefix (codes "pub fn ") s) as [s1|]; [|reflexivity].
  unfold max_plus. destruct s1 as [|c s1]; [reflexivity|].
  cbn [span]. destruct (word uni c) eqn:Ec; [|reflexivity].
  rewrite max_star_span.
  - cbn [fst snd]. now destruct (strip_prefix _ _).
  - intros x d r Hd. change (codes "(&mut self") with (40%N :: codes "&mut self").
    cbn [strip_prefix]. destruct (N.eqb_spec 40 d) as [<-|]; [|reflexivity].
    now rewrite word_paren in Hd.
Qed.

Lemma match_at_assign f s : match_at (assign_pattern f) s = assign_match f s.
Proof.
  unfold match_at, assign_pattern, assign_match. cbn [rmatch].
  destruct (strip_prefix (assign_prefix f) s) as [s1|]; [|reflexivity].
  change (codes ")") with [41%N].
  exact (min_star_scan dot 41%N s1
           (fun x v => (assign_prefix f ++ x ++ [41%N], v, [(1, x)]))).
Qed.

Lemma match_at_iflet f s : match_at (iflet_pattern f) s = iflet_match f s.
Proof. reflexivity. Qed.

(** ** The scan *)

Lemma found_free Q s : found Q s = false <-> free_of Q s.
Proof.
  split.
  - induction s as [|c s IH]; simpl; intros H l r E.
    + apply orb_false_elim in H as [H _].
      symmetry in E. apply app_eq_nil in E as [_ ->]. exact H.
    + apply orb_false_elim in H as [H H']. destruct l as [|a l]; simpl in E.
      * now subst r.
      * injection E as _ E. now apply (IH H' l).
  - induction s as [|c s IH]; simpl; intros H.
    + now rewrite (H [] []).
    + rewrite (H [] (c :: s) eq_refl). simpl. apply IH.
      intros l r ->. now apply (H (c :: l)).
Qed.

Lemma free_of_app_r Q l r : free_of Q (l ++ r) -> free_of Q r.
Proof. intros H l' r' ->. apply (H (l ++ l')). now rewrite app_assoc. Qed.

Lemma free_of_cons Q c s : free_of Q (c :: s) -> free_of Q s.
Proof. apply (free_of_app_r Q [c]). Qed.

Lemma free_of_head Q s : free_of Q s -> Q s = false.
Proof. intros H. now apply (H []). Qed.

Section Scan.
Variables (p : regex) (tpl : template).
Hypothesis Hne : nonempty_hits p.

Lemma match_at_nil : match_at p [] = None.
Proof.
  destruct (match_at p []) as [[[m rest] g]|] eqn:E; [|reflexivity].
  pose proof (match_at_split _ _ _ _ _ E) as H.
  symmetry in H. apply app_eq_nil in H as [-> _]. now elim (Hne _ _ _ _ E).
Qed.

Lemma sub_scan_fuel n : forall k s,
  length s <= n -> length s <= k -> sub_scan n p tpl s = sub_scan k p tpl s.
Proof.
  induction n as [|n IH]; intros k s Hn Hk.
  - destruct s; [|simpl in Hn; lia]. now destruct k.
  - destruct s as [|c s]; [now destruct k|].
    destruct k as [|k]; [simpl in Hk; lia|]. simpl in Hn, Hk. cbn [sub_scan].
    destruct (match_at p (c :: s)) as [[[m rest] g]|] eqn:E.
    + pose proof (match_at_split _ _ _ _ _ E) as Hs.
      destruct m as [|a m]; [now elim (Hne _ _ _ _ E)|].
      assert (length rest <= length s).
      { apply (f_equal (@length _)) in Hs. rewrite length_app in Hs.
        simpl in Hs. lia. }
      f_equal. apply IH; lia.
    + f_equal. apply IH; lia.
Qed.

Lemma re_sub_nil : re_sub p tpl [] = [].
Proof. unfold re_sub. simpl. now rewrite match_at_nil. Qed.

Lemma re_sub_hit s m rest g :
  match_at p s = Some (m, rest, g) ->
  re_sub p tpl s = expand tpl g ++ re_sub p tpl rest.
Proof.
  intros E. pose proof (match_at_split _ _ _ _ _ E) as Hs.
  destruct m as [|a m]; [now elim (Hne _ _ _ _ E)|].
  destruct s as [|c s]; [discriminate|].
  unfold re_sub. cbn [length sub_scan]. rewrite E. f_equal.
  apply sub_scan_fuel; [|lia].
  apply (f_equal (@length _)) in Hs. rewrite length_app in Hs. simpl in Hs. lia.
Qed.

Lemma re_sub_miss c s :
  match_at p (c :: s) = None -> re_sub p tpl (c :: s) = c :: re_sub p tpl s.
Proof. intros E. unfold re_sub. cbn [length sub_scan]. now rewrite E. Qed.

(** Induction along the scan. *)
Lemma scan_ind (P : text -> Prop) :
  P [] ->
  (forall c s, match_at p (c :: s) = None -> P s -> P (c :: s)) ->
  (forall s m rest g, match_at p s = Some (m, rest, g) -> P rest -> P s) ->
  forall s, P s.
Proof.
  intros Hnil Hmiss Hhit s.
  remember (length s) as n eqn:Hn. revert s Hn.
  induction n as [n IH] using lt_wf_ind. intros s ->.
  destruct s as [|c s]; [exact Hnil|].
  destruct (match_at p (c :: s)) as [[[m rest] g]|] eqn:E.
  - apply (Hhit _ _ _ _ E). apply (IH (length rest)); [|reflexivity].
    pose proof (match_at_split _ _ _ _ _ E) as Hs.
    pose proof (Hne _ _ _ _ E) as Hm. destruct m; [easy|].
    apply (f_equal (@length _)) in Hs. rewrite length_app in Hs.
    simpl in *. lia.
  - apply (Hmiss _ _ E). apply (IH (length s)); simpl; [lia|reflexivity].
Qed.

(** No match anywhere: nothing changes. *)
Lemma re_sub_free s : free_of (hits p) s -> re_sub p tpl s = s.
Proof.
  induction s as [|c s IH]; intros H; [apply re_sub_nil|].
  pose proof (free_of_head _ _ H) as Hh. unfold hits in Hh.
  destruct (match_at p (c :: s)) eqn:E; [discriminate|].
  rewrite (re_sub_miss _ _ E), IH; [reflexivity|]. now apply free_of_cons in H.
Qed.

(** The text before the first match is copied. *)
Lemma re_sub_skip c s :
  clean_to (hits p) c s -> re_sub p tpl (c ++ s) = c ++ re_sub p tpl s.
Proof.
  induction c as [|a c IH]; intros H; [reflexivity|]. simpl.
  assert (E : match_at p (a :: c ++ s) = None).
  { specialize (H [] (a :: c) eq_refl). unfold hits in H. simpl in H.
    destruct (match_at p (a :: c ++ s)); [now specialize (H ltac:(easy))|easy]. }
  rewrite (re_sub_miss _ _ E), IH; [reflexivity|].
  intros l r -> Hr. now apply (H (a :: l)).
Qed.

(** A rule that never completes a match of [Q] by one replacement never
    does so over the whole text. *)
Lemma re_sub_keeps_free (Q : text -> bool) :
  (forall u s m rest g, match_at p s = Some (m, rest, g) ->
     free_of Q (u ++ s) -> free_of Q (u ++ expand tpl g ++ rest)) ->
  forall s, free_of Q s -> free_of Q (re_sub p tpl s).
Proof.
  intros Hstep s.
  enough (H : forall u, free_of Q (u ++ s) -> free_of Q (u ++ re_sub p tpl s))
    by apply (H []).
  induction s as [|c s Hmiss IH|s m rest g E IH] using scan_ind; intros u H.
  - now rewrite re_sub_nil.
  - rewrite (re_sub_miss _ _ Hmiss).
    change (u ++ c :: re_sub p tpl s) with (u ++ [c] ++ re_sub p tpl s).
    rewrite app_assoc. apply IH. now rewrite <- app_assoc.
  - rewrite (re_sub_hit _ _ _ _ E), app_assoc. apply IH.
    rewrite <- app_assoc. now apply (Hstep _ s m).
Qed.

(** A rule whose replacements complete no match of its own pattern to
    their left or inside them leaves no match behind; [Inv] is what is
    known of the text still to be scanned. *)
Lemma re_sub_clears_if (Inv : text -> Prop) :
  (forall l r, Inv (l ++ r) -> Inv r) ->
  (forall c s m rest g, Inv s -> match_at p s = Some (m, rest, g) ->
     clean_to (hits p) c s -> clean_to (hits p) (c ++ expand tpl g) rest) ->
  forall s, Inv s -> free_of (hits p) (re_sub p tpl s).
Proof.
  intros Htail Hstep s.
  enough (H : Inv s -> forall c, clean_to (hits p) c s ->
                          free_of (hits p) (c ++ re_sub p tpl s)).
  { intros Hs. apply (H Hs []). intros l r E. symmetry in E.
    apply app_eq_nil in E as [_ ->]. easy. }
  induction s as [|c s Hmiss IH|s m rest g E IH] using scan_ind; intros Hs u H.
  - rewrite re_sub_nil, app_nil_r. intros l r ->.
    destruct r as [|a r]; [unfold hits; now rewrite match_at_nil|].
    specialize (H l (a :: r) eq_refl). rewrite app_nil_r in H. now apply H.
  - rewrite (re_sub_miss _ _ Hmiss).
    change (u ++ c :: re_sub p tpl s) with (u ++ [c] ++ re_sub p tpl s).
    rewrite app_assoc. apply IH; [now apply (Htail [c])|]. intros l r Hlr Hr.
    destruct (app_cut _ _ _ _ Hlr) as [(d & -> & Hc)|(d & Hd & -> & ->)].
    + destruct d as [|a d]; simpl in Hc.
      * subst r. unfold hits. simpl. now rewrite Hmiss.
      * injection Hc as _ Hc. symmetry in Hc.
        apply app_eq_nil in Hc as [_ ->]. easy.
    + rewrite <- app_assoc. now apply (H l d).
  - rewrite (re_sub_hit _ _ _ _ E), app_assoc. apply IH.
    + apply (Htail m). now rewrite <- (match_at_split _ _ _ _ _ E).
    + now apply (Hstep _ s m).
Qed.

Lemma re_sub_clears :
  (forall c s m rest g, match_at p s = Some (m, rest, g) ->
     clean_to (hits p) c s -> clean_to (hits p) (c ++ expand tpl g) rest) ->
  forall s, free_of (hits p) (re_sub p tpl s).
Proof.
  intros Hstep s. apply (re_sub_clears_if (fun _ => True)); [easy| |easy].
  intros c s' m rest g _. apply Hstep.
Qed.
End Scan.

(** ** Where the patterns occur, stated on the text *)

(** Take [Some (a, b, c) = Some (m, rest, g)] apart without reducing the
    literals in it. *)
Ltac hit_inv H :=
  match type of H with
  | Some (?a, ?b, ?c) = Some (?m, ?r, ?g) =>
      let H1 := fresh in let H2 := fresh in let H3 := fresh in
      assert (H1 : m = a) by congruence;
      assert (H2 : r = b) by congruence;
      assert (H3 : g = c) by congruence;
      clear H; subst m r g
  end.

Lemma match_at_sig_here uni name v :
  is_name uni name ->
  match_at (sig_pattern uni) (codes "pub fn " ++ name ++ codes "(&mut self" ++ v)
  = Some (codes "pub fn " ++ name ++ codes "(&mut self", v, [(1, name)]).
Proof.
  intros [Hn Hw]. rewrite match_at_sig. unfold sig_match.
  rewrite strip_prefix_app.
  change (codes "(&mut self" ++ v) with (40%N :: codes "&mut self" ++ v).
  rewrite (span_stop _ _ _ _ Hw (word_paren uni)).
  destruct name as [|c w]; [easy|].
  change (40%N :: codes "&mut self" ++ v) with (codes "(&mut self" ++ v).
  now rewrite strip_prefix_app.
Qed.

Lemma match_at_sig_inv uni s m rest g :
  match_at (sig_pattern uni) s = Some (m, rest, g) ->
  exists name, is_name uni name /\ s = m ++ rest /\
    m = codes "pub fn " ++ name ++ codes "(&mut self" /\ g = [(1, name)].
Proof.
  rewrite match_at_sig. unfold sig_match. intros H.
  destruct (strip_prefix (codes "pub fn ") s) as [s1|] eqn:E1; [|discriminate].
  pose proof (span_app (word uni) s1) as Ha.
  pose proof (span_all (word uni) s1) as Hw.
  destruct (span (word uni) s1) as [[|c w] s2]; [discriminate|].
  destruct (strip_prefix (codes "(&mut self") s2) as [v|] eqn:E2; [|discriminate].
  hit_inv H. exists (c :: w).
  apply strip_prefix_inv in E1, E2. cbn [fst snd] in *. subst s s1 s2.
  repeat split; [discriminate|exact Hw|].
  now rewrite <- !app_assoc.
Qed.

Lemma match_at_assign_here f x v :
  one_line x -> ~ In 41%N x ->
  match_at (assign_pattern f) (assign_prefix f ++ x ++ codes ")" ++ v)
  = Some (assign_prefix f ++ x ++ codes ")", v, [(1, x)]).
Proof.
  intros Hx Hn. rewrite match_at_assign. unfold assign_match.
  rewrite strip_prefix_app. change (codes ")" ++ v) with (41%N :: v).
  now rewrite (scan_to_app _ _ _ _ Hx Hn).
Qed.

Lemma match_at_assign_inv f s m rest g :
  match_at (assign_pattern f) s = Some (m, rest, g) ->
  exists x, one_line x /\ ~ In 41%N x /\ s = m ++ rest /\
    m = assign_prefix f ++ x ++ codes ")" /\ g = [(1, x)].
Proof.
  rewrite match_at_assign. unfold assign_match. intros H.
  destruct (strip_prefix (assign_prefix f) s) as [s1|] eqn:E1; [|discriminate].
  destruct (scan_to dot 41%N s1) as [[x v]|] eqn:E2; [|discriminate].
  hit_inv H. exists x.
  apply strip_prefix_inv in E1. apply scan_to_inv in E2 as (E2 & Hx & Hn).
  subst s s1. repeat split; try assumption.
  now rewrite <- !app_assoc.
Qed.

Lemma match_at_iflet_here f v :
  match_at (iflet_pattern f) (iflet_text f ++ v) = Some (iflet_text f, v, []).
Proof.
  rewrite match_at_iflet. unfold iflet_match. now rewrite strip_prefix_app.
Qed.

Lemma match_at_iflet_inv f s m rest g :
  match_at (iflet_pattern f) s = Some (m, rest, g) ->
  s = m ++ rest /\ m = iflet_text f /\ g = [].
Proof.
  rewrite match_at_iflet. unfold iflet_match. intros H.
  destruct (strip_prefix (iflet_text f) s) as [v|] eqn:E; [|discriminate].
  hit_inv H. now apply strip_prefix_inv in E.
Qed.

Lemma hits_sig uni s :
  hits (sig_pattern uni) s = true <->
  exists name v,
    s = codes "pub fn " ++ name ++ codes "(&mut self" ++ v /\ is_name uni name.
Proof.
  unfold hits. split.
  - destruct (match_at _ s) as [[[m rest] g]|] eqn:E; [intros _|discriminate].
    destruct (match_at_sig_inv _ _ _ _ _ E) as (name & Hn & -> & -> & _).
    exists name, rest. now rewrite <- !app_assoc.
  - intros (name & v & -> & Hn). now rewrite match_at_sig_here.
Qed.

Lemma hits_assign f s :
  hits (assign_pattern f) s = true <->
  exists x v, s = assign_prefix f ++ x ++ codes ")" ++ v /\ one_line x.
Proof.
  unfold hits. split.
  - destruct (match_at _ s) as [[[m rest] g]|] eqn:E; [intros _|discriminate].
    destruct (match_at_assign_inv _ _ _ _ _ E) as (x & Hx & _ & -> & -> & _).
    exists x, rest. now rewrite <- !app_assoc.
  - intros (x & v & -> & Hx). rewrite match_at_assign. unfold assign_match.
    rewrite strip_prefix_app. change (codes ")" ++ v) with (41%N :: v).
    pose proof (scan_to_some dot 41%N x v Hx).
    destruct (scan_to dot 41%N (x ++ 41%N :: v)) as [[? ?]|] eqn:E;
      [reflexivity|contradiction].
Qed.

Lemma hits_iflet f s :
  hits (iflet_pattern f) s = true <-> exists v, s = iflet_text f ++ v.
Proof.
  unfold hits. split.
  - destruct (match_at _ s) as [[[m rest] g]|] eqn:E; [intros _|discriminate].
    destruct (match_at_iflet_inv _ _ _ _ _ E) as (-> & -> & _). now exists rest.
  - intros (v & ->). now rewrite match_at_iflet_here.
Qed.

Lemma free_of_not (Q : text -> bool) (t : text) :
  free_of Q t <-> ~ exists l r, t = l ++ r /\ Q r = true.
Proof.
  split.
  - intros H (l & r & E & Hq). now rewrite (H l r E) in Hq.
  - intros H l r E. destruct (Q r) eqn:Hq; [|reflexivity].
    exfalso. apply H. now exists l, r.
Qed.

Lemma free_sig uni t : free_of (hits (sig_pattern uni)) t <-> ~ has_sig uni t.
Proof.
  rewrite free_of_not. apply not_iff_compat. split.
  - intros (l & r & -> & H). apply hits_sig in H as (name & v & -> & Hn).
    now exists l, name, v.
  - intros (l & name & v & -> & Hn). eexists l, _. split; [reflexivity|].
    apply hits_sig. now exists name, v.
Qed.

Lemma free_assign f t : free_of (hits (assign_pattern f)) t <-> ~ has_assign f t.
Proof.
  rewrite free_of_not. apply not_iff_compat. split.
  - intros (l & r & -> & H). apply hits_assign in H as (x & v & -> & Hx).
    now exists l, x, v.
  - intros (l & x & v & -> & Hx). eexists l, _. split; [reflexivity|].
    apply hits_assign. now exists x, v.
Qed.

Lemma free_iflet f t : free_of (hits (iflet_pattern f)) t <-> ~ has_iflet f t.
Proof.
  rewrite free_of_not. apply not_iff_compat. split.
  - intros (l & r & -> & H). apply hits_iflet in H as (v & ->). now exists l, v.
  - intros (l & v & ->). eexists l, _. split; [reflexivity|].
    apply hits_iflet. now exists v.
Qed.

(** None of the seven patterns matches the empty string. *)
Lemma sig_nonempty uni : nonempty_hits (sig_pattern uni).
Proof.
  intros s m rest g H.
  destruct (match_at_sig_inv _ _ _ _ _ H) as (name & _ & _ & -> & _). discriminate.
Qed.

Lemma assign_nonempty f : nonempty_hits (assign_pattern f).
Proof.
  intros s m rest g H.
  destruct (match_at_assign_inv _ _ _ _ _ H) as (x & _ & _ & _ & -> & _).
  discriminate.
Qed.

Lemma iflet_nonempty f : nonempty_hits (iflet_pattern f).
Proof.
  intros s m rest g H.
  destruct (match_at_iflet_inv _ _ _ _ _ H) as (_ & -> & _). discriminate.
Qed.

(** ** Literals that cannot overlap *)

Lemma clash_neq a b : clash a b = true -> forall x y, a ++ x <> b ++ y.
Proof.
  revert b; induction a as [|c a IH]; intros [|d b] H x y E; simpl in *;
    try discriminate.
  injection E as -> E. rewrite N.eqb_refl in H. now apply (IH _ H x y).
Qed.

Lemma tails_clash_neq lo q r e h x y :
  tails_clash lo q r = true -> q = e ++ h -> lo <= length e -> h <> [] ->
  h ++ x <> r ++ y.
Proof.
  unfold tails_clash. rewrite forallb_forall. intros H -> Hlo Hh.
  apply clash_neq. specialize (H (length e)).
  rewrite skipn_app, skipn_all, Nat.sub_diag in H. simpl in H. apply H.
  apply in_seq. rewrite length_app. destruct h; [easy|]. simpl. lia.
Qed.

Lemma clash_tails_neq q r l h x y :
  clash_tails q r = true -> r = l ++ h -> h <> [] -> h ++ x <> q ++ y.
Proof.
  unfold clash_tails. rewrite forallb_forall. intros H -> Hh E.
  symmetry in E. revert E. apply clash_neq. specialize (H (length l)).
  rewrite skipn_app, skipn_all, Nat.sub_diag in H. simpl in H. apply H.
  apply in_seq. rewrite length_app. destruct h; [easy|]. simpl. lia.
Qed.

(** If no proper suffix of [q] can run into [r], an occurrence of [q] that
    starts left of [r] ends left of [r]. *)
Lemma lit_local q r u v w :
  tails_clash 1 q r = true -> u <> [] -> u ++ r ++ v = q ++ w ->
  exists u', u = q ++ u'.
Proof.
  intros Hc Hu E. destruct (app_cut _ _ _ _ E) as [(d & -> & E')|(d & _ & -> & _)].
  - destruct d as [|a d]; [exists []; now rewrite !app_nil_r|].
    exfalso. symmetry in E'. revert E'.
    apply (tails_clash_neq 1 (u ++ a :: d) r u); try easy.
    destruct u; [easy|simpl; lia].
  - now exists d.
Qed.

Lemma lit_inside q r l h v w :
  clash_tails q r = true -> r = l ++ h -> h <> [] -> h ++ v <> q ++ w.
Proof. apply clash_tails_neq. Qed.

Lemma span_head cs s c r : snd (span cs s) = c :: r -> cs c = false.
Proof.
  induction s as [|a s IH]; simpl; [discriminate|].
  destruct (cs a) eqn:E; simpl; [exact IH|]. now intros [= <- _].
Qed.

Lemma name_runs_out uni r e x y :
  match span ascii_word r with
  | (_, []) => false
  | ([], c :: _) => N.ltb c 128
  | (_ :: _, c :: rr) => N.ltb c 128 && clash (codes "(&mut self") (c :: rr)
  end = true ->
  e <> [] -> forallb (word uni) e = true ->
  e ++ codes "(&mut self" ++ x <> r ++ y.
Proof.
  intros Hr He Hw E.
  pose proof (span_app ascii_word r) as Ha.
  pose proof (span_all ascii_word r) as Hwr.
  pose proof (span_head ascii_word r) as Hh.
  destruct (span ascii_word r) as [wr [|c rr]]; [now destruct wr|].
  cbn [fst snd] in *. specialize (Hh c rr eq_refl).
  assert (Hc : N.ltb c 128 = true /\
               (wr <> [] -> clash (codes "(&mut self") (c :: rr) = true)).
  { destruct wr; [easy|]. apply andb_prop in Hr as [? ?]. easy. }
  destruct Hc as [Hc Hcl]. subst r. rewrite <- app_assoc in E.
  destruct (app_cut _ _ _ _ E) as [(d & -> & E')|(d & Hd & -> & E')].
  - destruct d as [|a d].
    + rewrite app_nil_r in Hcl. simpl in E'.
      now apply (clash_neq _ _ (Hcl He) x y).
    + change (codes "(&mut self") with (40%N :: codes "&mut self") in E'.
      injection E' as <- _. rewrite forallb_app in Hwr.
      apply andb_prop in Hwr as [_ Hwr]. simpl in Hwr. discriminate.
  - destruct d as [|a d]; [easy|]. injection E' as <- _.
    rewrite forallb_app in Hw. apply andb_prop in Hw as [_ Hw].
    simpl in Hw. apply andb_prop in Hw as [Hw _].
    unfold word in Hw. rewrite Hc in Hw. congruence.
Qed.

Lemma sig_local uni r u v name w :
  sig_apart r = true -> u <> [] -> is_name uni name ->
  u ++ r ++ v = codes "pub fn " ++ name ++ codes "(&mut self" ++ w ->
  exists u', u = codes "pub fn " ++ name ++ codes "(&mut self" ++ u'.
Proof.
  unfold sig_apart. intros Hr Hu [Hn Hw] E.
  apply andb_prop in Hr as [Hr H3]. apply andb_prop in Hr as [H1 H2].
  destruct (app_cut _ _ _ _ E) as [(d & Ed & E1)|(d & Hd & -> & E1)].
  - exfalso. destruct d as [|a d].
    + simpl in E1. symmetry in E1. revert E1. now apply (name_runs_out uni).
    + symmetry in E1. revert E1.
      apply (tails_clash_neq 1 _ r u _ _ _ H1 Ed); [|easy].
      destruct u; [easy|simpl; lia].
  - destruct (app_cut _ _ _ _ E1) as [(e & -> & E2)|(e & He & -> & E2)].
    + destruct (app_cut _ _ _ _ E2) as [(h & -> & E3)|(h & Hh & Eh & E3)].
      * now exists h.
      * exfalso. symmetry in E3. revert E3.
        apply (tails_clash_neq 0 _ r e _ _ _ H2 Eh); [lia|easy].
    + exfalso. rewrite forallb_app in Hw. apply andb_prop in Hw as [_ Hw].
      symmetry in E2. revert E2.
      apply (name_runs_out uni); [exact H3|exact He|exact Hw].
Qed.

Lemma sig_clean_before uni pre r v :
  sig_apart r = true -> ~ has_sig uni pre ->
  clean_to (hits (sig_pattern uni)) pre (r ++ v).
Proof.
  intros Hr Hpre l h -> Hh.
  destruct (hits (sig_pattern uni) (h ++ r ++ v)) eqn:E; [|reflexivity].
  apply hits_sig in E as (name & w & E & Hn).
  destruct (sig_local _ _ _ _ _ _ Hr Hh Hn E) as (u' & ->).
  exfalso. apply Hpre. now exists l, name, u'.
Qed.

Lemma assign_clean_before f pre r v :
  tails_clash 1 (assign_prefix f) r = true ->
  ~ has_text (assign_prefix f) pre ->
  clean_to (hits (assign_pattern f)) pre (r ++ v).
Proof.
  intros Hr Hpre l h -> Hh.
  destruct (hits (assign_pattern f) (h ++ r ++ v)) eqn:E; [|reflexivity].
  apply hits_assign in E as (x & w & E & _).
  destruct (lit_local _ _ _ _ _ Hr Hh E) as (u' & ->).
  exfalso. apply Hpre. now exists l, u'.
Qed.

Lemma scan_to_break cs stop x c rest :
  forallb cs x = true -> ~ In stop x -> cs c = false -> c <> stop ->
  scan_to cs stop (x ++ c :: rest) = None.
Proof.
  intros Hx Hn Hc Hs. induction x as [|a x IH]; simpl in *.
  - destruct (N.eqb_spec c stop); [easy|]. now rewrite Hc.
  - apply andb_prop in Hx as [Ha Hx].
    destruct (N.eqb_spec a stop) as [->|_]; [exfalso; apply Hn; now left|].
    rewrite Ha, IH; [reflexivity|assumption|]. intros H; apply Hn; now right.
Qed.

(** The first declaration is rewritten and the scan goes on behind it. *)
Lemma fix_signatures_first uni pre name post :
  is_name uni name -> ~ has_sig uni pre ->
  fix_signatures uni
    (pre ++ codes "pub fn " ++ name ++ codes "(&mut self" ++ post)
  = pre ++ codes "pub fn " ++ name ++ codes "(&self" ++ fix_signatures uni post.
Proof.
  intros Hn Hpre. unfold fix_signatures.
  rewrite re_sub_skip.
  - rewrite (re_sub_hit _ _ (sig_nonempty uni) _ _ _ _
               (match_at_sig_here uni name post Hn)).
    unfold expand, sig_template. cbn [map concat expand_item group Nat.eqb].
    now rewrite app_nil_r, <- !app_assoc.
  - now apply sig_clean_before.
Qed.

(** The first assignment whose argument reaches a [)] on its line is
    rewritten and the scan goes on behind that [)]. *)
Lemma fix_assign_first f pre x post :
  one_line x -> ~ In 41%N x -> ~ has_text (assign_prefix f) pre ->
  fix_assign f (pre ++ assign_prefix f ++ x ++ codes ")" ++ post)
  = pre ++ assign_head f ++ x ++ codes ")" ++ fix_assign f post.
Proof.
  intros Hx Hn Hpre. unfold fix_assign.
  rewrite re_sub_skip.
  - rewrite (re_sub_hit _ _ (assign_nonempty f) _ _ _ _
               (match_at_assign_here f x post Hx Hn)).
    unfold expand, assign_template. cbn [map concat expand_item group Nat.eqb].
    now rewrite app_nil_r, <- !app_assoc.
  - apply assign_clean_before; [now destruct f|assumption].
Qed.

Lemma fix_signatures_id uni t : ~ has_sig uni t -> fix_signatures uni t = t.
Proof.
  intros H. apply (re_sub_free _ _ (sig_nonempty uni)). now apply free_sig.
Qed.

Lemma fix_assign_id f t : ~ has_assign f t -> fix_assign f t = t.
Proof.
  intros H. apply (re_sub_free _ _ (assign_nonempty f)). now apply free_assign.
Qed.

Lemma fix_iflet_id f t : ~ has_iflet f t -> fix_iflet f t = t.
Proof.
  intros H. apply (re_sub_free _ _ (iflet_nonempty f)). now apply free_iflet.
Qed.

(** ** One replacement at a time *)

Lemma edit_free Q m r u rest :
  carried Q m r u rest -> not_inside Q r ->
  free_of Q (u ++ m ++ rest) -> free_of Q (u ++ r ++ rest).
Proof.
  intros Hl Hi H l h E.
  destruct (app_cut _ _ _ _ E) as [(d & -> & E1)|(d & Hd & -> & ->)].
  - destruct (app_cut _ _ _ _ E1) as [(e & -> & ->)|(e & He & Er & ->)].
    + apply (H (u ++ m ++ e)). now rewrite <- !app_assoc.
    + now apply (Hi d e).
  - destruct (Q (d ++ r ++ rest)) eqn:Eq; [|reflexivity].
    rewrite <- (H l (d ++ m ++ rest)); [|now rewrite <- app_assoc].
    symmetry. now apply (Hl l d).
Qed.

Lemma edit_clean Q m r c rest :
  carried Q m r c rest -> not_inside Q r ->
  clean_to Q c (m ++ rest) -> clean_to Q (c ++ r) rest.
Proof.
  intros Hl Hi H l h E Hh.
  destruct (app_cut _ _ _ _ E) as [(d & -> & Ed)|(d & Hd & -> & ->)].
  - now apply (Hi d h).
  - rewrite <- app_assoc. destruct (Q (d ++ r ++ rest)) eqn:Eq; [|reflexivity].
    rewrite <- (H l d eq_refl Hd). symmetry. now apply (Hl l d).
Qed.

Lemma left_local_carried Q m r u rest : left_local Q r -> carried Q m r u rest.
Proof. intros H l d _ Hd Hq. now apply (H d rest). Qed.

Lemma sig_left_local uni r :
  sig_apart r = true -> left_local (hits (sig_pattern uni)) r.
Proof.
  intros Hr d v Hd H v'. apply hits_sig in H as (name & w & E & Hn).
  destruct (sig_local _ _ _ _ _ _ Hr Hd Hn E) as (u' & ->).
  apply hits_sig. exists name, (u' ++ v'). now rewrite <- !app_assoc.
Qed.

Lemma sig_not_inside uni r :
  clash_tails (codes "pub fn ") r = true -> not_inside (hits (sig_pattern uni)) r.
Proof.
  intros Hr l h v E Hh. destruct (hits _ (h ++ v)) eqn:Eq; [|reflexivity].
  apply hits_sig in Eq as (name & w & Eq & _).
  now elim (lit_inside _ _ _ _ _ _ Hr E Hh Eq).
Qed.

Lemma iflet_left_local f r :
  tails_clash 1 (iflet_text f) r = true -> left_local (hits (iflet_pattern f)) r.
Proof.
  intros Hr d v Hd H v'. apply hits_iflet in H as (w & E).
  destruct (lit_local _ _ _ _ _ Hr Hd E) as (u' & ->).
  apply hits_iflet. exists (u' ++ v'). now rewrite <- app_assoc.
Qed.

Lemma iflet_not_inside f r :
  clash_tails (iflet_text f) r = true -> not_inside (hits (iflet_pattern f)) r.
Proof.
  intros Hr l h v E Hh. destruct (hits _ (h ++ v)) eqn:Eq; [|reflexivity].
  apply hits_iflet in Eq as (w & Eq).
  now elim (lit_inside _ _ _ _ _ _ Hr E Hh Eq).
Qed.

(** ** What a pass leaves behind *)

Lemma name_no_paren uni name : forallb (word uni) name = true -> ~ In 40%N name.
Proof.
  rewrite forallb_forall. intros H Hin. specialize (H _ Hin).
  now rewrite word_paren in H.
Qed.

(** After the first substitution no declaration with [&mut self] is left. *)
Lemma fix_signatures_clears uni t : ~ has_sig uni (fix_signatures uni t).
Proof.
  apply free_sig. apply (re_sub_clears _ _ (sig_nonempty uni)).
  intros c s m rest g E Hc.
  destruct (match_at_sig_inv _ _ _ _ _ E) as (name & [Hn Hw] & -> & -> & ->).
  unfold expand, sig_template. cbn [map concat expand_item group Nat.eqb].
  rewrite app_nil_r.
  intros l h E' Hh.
  destruct (hits (sig_pattern uni) (h ++ rest)) eqn:Eh; [exfalso|reflexivity].
  rewrite !app_assoc in E'.
  destruct (app_cut _ _ _ _ E') as [(d & _ & Ed)|(d & Hd & Ec & ->)].
  - now rewrite (sig_not_inside uni (codes "(&self") eq_refl _ _ rest Ed Hh) in Eh.
  - rewrite <- app_assoc in Eh.
    pose proof (sig_left_local uni (codes "(&self") eq_refl d rest Hd Eh) as Hq.
    rewrite <- app_assoc in Ec.
    destruct (app_cut _ _ _ _ Ec) as [(e & -> & Ee)|(e & He & -> & ->)].
    + specialize (Hq []). rewrite app_nil_r in Hq.
      apply hits_sig in Hq as (n' & w' & -> & _).
      assert (Hin : In 40%N (codes "pub fn " ++ name)).
      { rewrite Ee, !in_app_iff. right. right. right. left. now left. }
      apply in_app_iff in Hin as [Hin|Hin].
      * simpl in Hin. intuition discriminate.
      * now apply (name_no_paren uni name).
    + specialize (Hq (codes "(&mut self" ++ rest)).
      specialize (Hc l e eq_refl He). rewrite <- !app_assoc in Hq, Hc.
      congruence.
Qed.

(** The later substitutions do not bring one back. *)
Lemma fix_assign_keeps_sig uni f t :
  ~ has_sig uni t -> ~ has_sig uni (fix_assign f t).
Proof.
  rewrite <- !free_sig. apply (re_sub_keeps_free _ _ (assign_nonempty f)).
  intros u s m rest g E.
  destruct (match_at_assign_inv _ _ _ _ _ E) as (x & _ & _ & -> & -> & ->).
  unfold expand, assign_template. cbn [map concat expand_item group Nat.eqb].
  rewrite app_nil_r, <- !app_assoc.
  apply edit_free;
    [apply left_local_carried, sig_left_local|apply sig_not_inside];
    now destruct f.
Qed.

Lemma fix_iflet_keeps_sig uni f t :
  ~ has_sig uni t -> ~ has_sig uni (fix_iflet f t).
Proof.
  rewrite <- !free_sig. apply (re_sub_keeps_free _ _ (iflet_nonempty f)).
  intros u s m rest g E.
  destruct (match_at_iflet_inv _ _ _ _ _ E) as (-> & -> & ->).
  unfold expand, iflet_template. cbn [map concat expand_item].
  rewrite app_nil_r.
  apply edit_free;
    [apply left_local_carried, sig_left_local|apply sig_not_inside];
    now destruct f.
Qed.

(** Each of the last three substitutions leaves none of its matches and
    brings back none of the other two. *)
Lemma fix_iflet_clears f t : ~ has_iflet f (fix_iflet f t).
Proof.
  apply free_iflet. apply (re_sub_clears _ _ (iflet_nonempty f)).
  intros c s m rest g E.
  destruct (match_at_iflet_inv _ _ _ _ _ E) as (-> & -> & ->).
  unfold expand, iflet_template. cbn [map concat expand_item].
  rewrite app_nil_r.
  apply edit_clean;
    [apply left_local_carried, iflet_left_local|apply iflet_not_inside];
    now destruct f.
Qed.

Lemma fix_iflet_keeps_iflet f f' t :
  ~ has_iflet f t -> ~ has_iflet f (fix_iflet f' t).
Proof.
  rewrite <- !free_iflet. apply (re_sub_keeps_free _ _ (iflet_nonempty f')).
  intros u s m rest g E.
  destruct (match_at_iflet_inv _ _ _ _ _ E) as (-> & -> & ->).
  unfold expand, iflet_template. cbn [map concat expand_item].
  rewrite app_nil_r.
  apply edit_free;
    [apply left_local_carried, iflet_left_local|apply iflet_not_inside];
    now destruct f, f'.
Qed.

(** After one pass neither a [&mut self] declaration nor an
    [if let Some(pb) = &self.F] is left. *)
Lemma pipeline_no_sig uni t : ~ has_sig uni (pipeline uni t).
Proof.
  unfold pipeline.
  do 3 apply fix_iflet_keeps_sig. do 3 apply fix_assign_keeps_sig.
  apply fix_signatures_clears.
Qed.

Lemma pipeline_no_iflet uni t f : ~ has_iflet f (pipeline uni t).
Proof.
  unfold pipeline. destruct f.
  - do 2 apply fix_iflet_keeps_iflet. apply fix_iflet_clears.
  - apply fix_iflet_keeps_iflet. apply fix_iflet_clears.
  - apply fix_iflet_clears.
Qed.

(** ** Lengths: the last six substitutions only ever add text *)

Section Growth.
Variables (p : regex) (tpl : template).
Hypothesis Hne : nonempty_hits p.
Hypothesis Hgrow : forall s m rest g,
  match_at p s = Some (m, rest, g) -> length m < length (expand tpl g).

Lemma re_sub_length (s : text) : length s <= length (re_sub p tpl s).
Proof.
  induction s as [|c s Hmiss IH|s m rest g E IH] using (scan_ind p Hne).
  - now rewrite re_sub_nil.
  - rewrite (re_sub_miss _ _ _ _ Hmiss). simpl. lia.
  - rewrite (re_sub_hit _ _ Hne _ _ _ _ E), length_app.
    rewrite (match_at_split _ _ _ _ _ E), length_app.
    pose proof (Hgrow _ _ _ _ E). lia.
Qed.

Lemma re_sub_same_length (s : text) :
  length (re_sub p tpl s) = length s -> free_of (hits p) s.
Proof.
  induction s as [|c s Hmiss IH|s m rest g E IH] using (scan_ind p Hne).
  - intros _ l r E. symmetry in E. apply app_eq_nil in E as [_ ->].
    unfold hits. now rewrite match_at_nil.
  - rewrite (re_sub_miss _ _ _ _ Hmiss). simpl. intros H.
    injection H as H. specialize (IH H). intros [|a l] r E.
    + simpl in E. subst r. unfold hits. now rewrite Hmiss.
    + injection E as _ E. now apply (IH l).
  - rewrite (re_sub_hit _ _ Hne _ _ _ _ E), length_app.
    rewrite (match_at_split _ _ _ _ _ E), length_app.
    pose proof (Hgrow _ _ _ _ E). pose proof (re_sub_length rest). lia.
Qed.
End Growth.

Lemma assign_grows f s m rest g :
  match_at (assign_pattern f) s = Some (m, rest, g) ->
  length m < length (expand (assign_template f) g).
Proof.
  intros E.
  destruct (match_at_assign_inv _ _ _ _ _ E) as (x & _ & _ & _ & -> & ->).
  unfold expand, assign_template. cbn [map concat expand_item group Nat.eqb].
  rewrite !length_app. destruct f; simpl; lia.
Qed.

Lemma iflet_grows f s m rest g :
  match_at (iflet_pattern f) s = Some (m, rest, g) ->
  length m < length (expand (iflet_template f) g).
Proof.
  intros E. destruct (match_at_iflet_inv _ _ _ _ _ E) as (_ & -> & ->).
  destruct f; simpl; lia.
Qed.

Lemma fix_assign_length f t : length t <= length (fix_assign f t).
Proof. apply (re_sub_length _ _ (assign_nonempty f) (assign_grows f)). Qed.

Lemma fix_iflet_length f t : length t <= length (fix_iflet f t).
Proof. apply (re_sub_length _ _ (iflet_nonempty f) (iflet_grows f)). Qed.

Lemma fix_assign_same_length f t :
  length (fix_assign f t) = length t -> ~ has_assign f t.
Proof.
  intros H. apply free_assign.
  now apply (re_sub_same_length _ _ (assign_nonempty f) (assign_grows f)).
Qed.

(** A text the pipeline (after its first step) maps to itself has none of
    the three assignment patterns. *)
Lemma fixed_no_assign (s : text) :
  fix_iflet rename_bar (fix_iflet content_bar (fix_iflet main_bar
    (fix_assign rename_bar (fix_assign content_bar (fix_assign main_bar s)))))
  = s ->
  forall f, ~ has_assign f s.
Proof.
  intros H.
  pose proof (fix_assign_length main_bar s) as L1.
  pose proof (fix_assign_length content_bar (fix_assign main_bar s)) as L2.
  pose proof (fix_assign_length rename_bar
                (fix_assign content_bar (fix_assign main_bar s))) as L3.
  pose proof (fix_iflet_length main_bar (fix_assign rename_bar
                (fix_assign content_bar (fix_assign main_bar s)))) as L4.
  pose proof (fix_iflet_length content_bar (fix_iflet main_bar
                (fix_assign rename_bar
                   (fix_assign content_bar (fix_assign main_bar s))))) as L5.
  pose proof (fix_iflet_length rename_bar (fix_iflet content_bar
                (fix_iflet main_bar (fix_assign rename_bar
                   (fix_assign content_bar (fix_assign main_bar s)))))) as L6.
  rewrite H in L6.
  assert (N1 : ~ has_assign main_bar s)
    by (apply fix_assign_same_length; lia).
  rewrite (fix_assign_id _ _ N1) in *.
  assert (N2 : ~ has_assign content_bar s)
    by (apply fix_assign_same_length; lia).
  rewrite (fix_assign_id _ _ N2) in *.
  assert (N3 : ~ has_assign rename_bar s)
    by (apply fix_assign_same_length; lia).
  now intros [].
Qed.


(** ** Lines *)

Lemma one_line_app x y : one_line (x ++ y) <-> one_line x /\ one_line y.
Proof. unfold one_line. rewrite forallb_app. apply andb_true_iff. Qed.

Lemma one_line_blind l : has_newline l = false <-> one_line l.
Proof.
  unfold one_line, has_newline, dot.
  induction l as [|c l IH]; cbn [existsb forallb]; [easy|].
  rewrite (N.eqb_sym newline c), orb_false_iff, andb_true_iff, IH, negb_true_iff.
  reflexivity.
Qed.

Lemma strip_prefix_nl l s1 s2 :
  has_newline l = false ->
  strip_prefix l (s1 ++ newline :: s2)
  = match strip_prefix l s1 with
    | Some r => Some (r ++ newline :: s2)
    | None => None
    end.
Proof.
  revert s1; induction l as [|a l IH]; intros s1 H; [reflexivity|].
  unfold has_newline in H. cbn [existsb] in H.
  apply orb_false_elim in H as [Ha Hl].
  destruct s1 as [|b s1]; cbn [app strip_prefix].
  - rewrite N.eqb_sym. now rewrite Ha.
  - destruct (N.eqb a b); [now apply IH|reflexivity].
Qed.

Lemma max_star_nl {R} cs s1 s2 (k : text -> text -> option R) :
  cs newline = false ->
  max_star cs (s1 ++ newline :: s2) k
  = max_star cs s1 (fun x r => k x (r ++ newline :: s2)).
Proof.
  intros H. revert k; induction s1 as [|c s1 IH]; intros k; simpl.
  - now rewrite H.
  - destruct (cs c); [|reflexivity]. now rewrite IH.
Qed.

Lemma min_star_nl {R} cs s1 s2 (k : text -> text -> option R) :
  cs newline = false ->
  min_star cs (s1 ++ newline :: s2) k
  = min_star cs s1 (fun x r => k x (r ++ newline :: s2)).
Proof.
  intros H. revert k; induction s1 as [|c s1 IH]; intros k; simpl.
  - rewrite H. now destruct (k [] (newline :: s2)).
  - destruct (k [] (c :: s1 ++ newline :: s2)); [reflexivity|].
    destruct (cs c); [|reflexivity]. now rewrite IH.
Qed.

(** The matcher only looks at what its continuation returns. *)
Lemma max_star_ext {R} cs s (k k' : text -> text -> option R) :
  (forall x r, k x r = k' x r) -> max_star cs s k = max_star cs s k'.
Proof.
  revert k k'; induction s as [|c s IH]; intros k k' H; simpl; [apply H|].
  destruct (cs c); [|apply H].
  rewrite (IH _ (fun x r => k' (c :: x) r)) by (intros; apply H).
  now rewrite H.
Qed.

Lemma min_star_ext {R} cs s (k k' : text -> text -> option R) :
  (forall x r, k x r = k' x r) -> min_star cs s k = min_star cs s k'.
Proof.
  revert k k'; induction s as [|c s IH]; intros k k' H; simpl; rewrite H;
    [reflexivity|].
  destruct (k' [] (c :: s)); [reflexivity|]. destruct (cs c); [|reflexivity].
  apply IH. intros; apply H.
Qed.

Lemma rmatch_ext {R} r : forall s g (k k' : text -> text -> caps -> option R),
  (forall x s' g', k x s' g' = k' x s' g') -> rmatch r s g k = rmatch r s g k'.
Proof.
  induction r as [l|a IHa b IHb|i a IHa|cs|cs]; intros s g k k' H; simpl.
  - destruct (strip_prefix l s); [apply H|reflexivity].
  - apply IHa. intros. apply IHb. intros. apply H.
  - apply IHa. intros. apply H.
  - unfold max_plus. destruct s as [|c s]; [reflexivity|].
    destruct (cs c); [|reflexivity]. apply max_star_ext. intros. apply H.
  - apply min_star_ext. intros. apply H.
Qed.

Lemma rmatch_nl {R} r : forall s1 s2 g (k : text -> text -> caps -> option R),
  blind r = true ->
  rmatch r (s1 ++ newline :: s2) g k
  = rmatch r s1 g (fun x s' g' => k x (s' ++ newline :: s2) g').
Proof.
  induction r as [l|a IHa b IHb|i a IHa|cs|cs]; intros s1 s2 g k H; simpl in *.
  - rewrite strip_prefix_nl by now apply negb_true_iff.
    now destruct (strip_prefix l s1).
  - apply andb_prop in H as [Ha Hb]. rewrite IHa by assumption.
    apply rmatch_ext. intros. now apply IHb.
  - now rewrite IHa.
  - apply negb_true_iff in H. unfold max_plus.
    destruct s1 as [|c s1]; simpl; [now rewrite H|].
    destruct (cs c); [|reflexivity]. now rewrite max_star_nl.
  - apply negb_true_iff in H. now rewrite min_star_nl.
Qed.

(** Post-processing the answer of the continuation commutes with the
    matcher. *)
Lemma max_star_map {R S} (F : R -> S) cs s (k : text -> text -> option R) :
  max_star cs s (fun x r => option_map F (k x r))
  = option_map F (max_star cs s k).
Proof.
  revert k; induction s as [|c s IH]; intros k; simpl; [reflexivity|].
  destruct (cs c); [|reflexivity].
  rewrite (IH (fun x r => k (c :: x) r)).
  now destruct (max_star cs s _).
Qed.

Lemma min_star_map {R S} (F : R -> S) cs s (k : text -> text -> option R) :
  min_star cs s (fun x r => option_map F (k x r))
  = option_map F (min_star cs s k).
Proof.
  revert k; induction s as [|c s IH]; intros k; simpl.
  - now destruct (k [] []).
  - destruct (k [] (c :: s)); [reflexivity|]. simpl.
    destruct (cs c); [|reflexivity]. apply (IH (fun x r => k (c :: x) r)).
Qed.

Lemma rmatch_map {R S} (F : R -> S) r :
  forall s g (k : text -> text -> caps -> option R),
  rmatch r s g (fun x s' g' => option_map F (k x s' g'))
  = option_map F (rmatch r s g k).
Proof.
  induction r as [l|a IHa b IHb|i a IHa|cs|cs]; intros s g k; simpl.
  - now destruct (strip_prefix l s).
  - rewrite <- IHa. apply rmatch_ext. intros. apply IHb.
  - apply (IHa s g (fun x s1 g1 => k x s1 ((i, x) :: g1))).
  - unfold max_plus. destruct s as [|c s]; [reflexivity|].
    destruct (cs c); [|reflexivity].
    apply (max_star_map F cs s (fun x r => k (c :: x) r g)).
  - apply (min_star_map F cs s (fun x r => k x r g)).
Qed.

Lemma match_at_nl p s1 s2 :
  blind p = true ->
  match_at p (s1 ++ newline :: s2)
  = option_map (fun '(m, rest, g) => (m, rest ++ newline :: s2, g))
      (match_at p s1).
Proof.
  intros H. unfold match_at. rewrite rmatch_nl by assumption.
  apply (rmatch_map (fun '(m, rest, g) => (m, rest ++ newline :: s2, g)) p s1 []
           (fun x s' g' => Some (x, s', g'))).
Qed.

Lemma rmatch_caps {R} r : forall s g (k : text -> text -> caps -> option R) v,
  one_line s -> caps_lines g -> rmatch r s g k = Some v ->
  exists x s' g', s = x ++ s' /\ caps_lines g' /\ k x s' g' = Some v.
Proof.
  induction r as [l|a IHa b IHb|i a IHa|cs|cs]; intros s g k v Hs Hg H;
    simpl in H.
  - destruct (strip_prefix l s) as [s'|] eqn:E; [|discriminate].
    exists l, s', g. repeat split; [now apply strip_prefix_inv|assumption..].
  - destruct (IHa _ _ _ _ Hs Hg H) as (x & s1 & g1 & -> & Hg1 & H1).
    apply one_line_app in Hs as [_ Hs1].
    destruct (IHb _ _ _ _ Hs1 Hg1 H1) as (y & s2 & g2 & -> & Hg2 & H2).
    exists (x ++ y), s2, g2. repeat split; [now rewrite app_assoc|assumption..].
  - destruct (IHa _ _ _ _ Hs Hg H) as (x & s1 & g1 & -> & Hg1 & H1).
    exists x, s1, ((i, x) :: g1). repeat split; [|assumption].
    constructor; [|assumption]. now apply one_line_app in Hs as [Hx _].
  - unfold max_plus in H. destruct s as [|c s]; [discriminate|].
    destruct (cs c); [|discriminate].
    destruct (max_star_split _ _ _ _ H) as (x & s' & -> & Hk).
    now exists (c :: x), s', g.
  - destruct (min_star_split _ _ _ _ H) as (x & s' & -> & Hk).
    now exists x, s', g.
Qed.

Lemma match_at_caps p s m rest g :
  one_line s -> match_at p s = Some (m, rest, g) -> caps_lines g.
Proof.
  intros Hs H.
  destruct (rmatch_caps p s [] _ _ Hs ltac:(constructor) H)
    as (x & s' & g' & _ & Hg & E).
  now inversion E; subst.
Qed.

Lemma group_one_line i g : caps_lines g -> one_line (group i g).
Proof.
  induction 1 as [|[j x] g Hx Hg IH]; simpl; [reflexivity|].
  now destruct (Nat.eqb i j).
Qed.

Lemma expand_one_line tpl g :
  blind_template tpl = true -> caps_lines g -> one_line (expand tpl g).
Proof.
  unfold expand, blind_template. intros Ht Hg.
  induction tpl as [|it tpl IH]; simpl in *; [reflexivity|].
  apply andb_prop in Ht as [Hi Ht]. apply one_line_app. split; [|now apply IH].
  destruct it as [l|i]; simpl in *.
  - apply one_line_blind. now apply negb_true_iff.
  - now apply group_one_line.
Qed.

Lemma lines_one_line l : one_line l -> lines l = [l].
Proof.
  unfold one_line, dot. induction l as [|c l IH]; cbn [forallb lines];
    [reflexivity|].
  intros H. apply andb_prop in H as [Hc Hl]. apply negb_true_iff in Hc.
  now rewrite Hc, (IH Hl).
Qed.

Lemma lines_nl l s : one_line l -> lines (l ++ newline :: s) = l :: lines s.
Proof.
  unfold one_line, dot. induction l as [|c l IH]; cbn [forallb lines app].
  - now rewrite N.eqb_refl.
  - intros H. apply andb_prop in H as [Hc Hl]. apply negb_true_iff in Hc.
    now rewrite Hc, (IH Hl).
Qed.

(** A text is one line, or a first line, a line feed and the rest. *)
Lemma first_line (t : text) :
  one_line t \/ exists l s, t = l ++ newline :: s /\ one_line l.
Proof.
  induction t as [|c t IH]; [now left|].
  destruct (N.eqb_spec c newline) as [->|Hc].
  - right. now exists [], t.
  - assert (Hd : dot c = true)
      by (unfold dot; apply negb_true_iff; now apply N.eqb_neq).
    destruct IH as [H|(l & s & -> & H)].
    + left. unfold one_line in *. simpl. now rewrite Hd.
    + right. exists (c :: l), s. split; [reflexivity|].
      unfold one_line in *. simpl. now rewrite Hd.
Qed.

Lemma lines_ind (P : text -> Prop) :
  (forall l, one_line l -> P l) ->
  (forall l s, one_line l -> P s -> P (l ++ newline :: s)) ->
  forall t, P t.
Proof.
  intros H1 H2 t. remember (length t) as n eqn:Hn. revert t Hn.
  induction n as [n IH] using lt_wf_ind. intros t ->.
  destruct (first_line t) as [H|(l & s & -> & H)]; [now apply H1|].
  apply H2; [assumption|]. apply (IH (length s)); [|reflexivity].
  rewrite length_app. simpl. lia.
Qed.

Section Lines.
Variables (p : regex) (tpl : template).
Hypothesis Hne : nonempty_hits p.
Hypothesis Hp : blind p = true.
Hypothesis Ht : blind_template tpl = true.

Lemma re_sub_nl (s1 s2 : text) :
  re_sub p tpl (s1 ++ newline :: s2)
  = re_sub p tpl s1 ++ newline :: re_sub p tpl s2.
Proof.
  induction s1 as [|c s Hmiss IH|s m rest g E IH] using (scan_ind p Hne).
  - rewrite (re_sub_nil _ _ Hne). apply re_sub_miss.
    pose proof (match_at_nl p [] s2 Hp) as H.
    now rewrite (match_at_nil _ Hne) in H.
  - rewrite (re_sub_miss _ _ _ _ Hmiss). simpl. rewrite <- IH.
    apply re_sub_miss. pose proof (match_at_nl p (c :: s) s2 Hp) as H.
    now rewrite Hmiss in H.
  - rewrite (re_sub_hit _ _ Hne _ _ _ _ E), <- app_assoc, <- IH.
    apply (re_sub_hit _ _ Hne _ m). rewrite (match_at_nl p s s2 Hp).
    now rewrite E.
Qed.

Lemma re_sub_one_line (s : text) : one_line s -> one_line (re_sub p tpl s).
Proof.
  induction s as [|c s Hmiss IH|s m rest g E IH] using (scan_ind p Hne).
  - now rewrite (re_sub_nil _ _ Hne).
  - rewrite (re_sub_miss _ _ _ _ Hmiss). intros H.
    apply (one_line_app [c]) in H as [Hc Hs].
    apply (one_line_app [c]). split; [assumption|now apply IH].
  - intros H. rewrite (re_sub_hit _ _ Hne _ _ _ _ E). apply one_line_app. split.
    + apply (expand_one_line _ _ Ht). now apply (match_at_caps p s m rest).
    + apply IH. rewrite (match_at_split _ _ _ _ _ E) in H.
      now apply one_line_app in H as [_ H].
Qed.

(** The substitution works line by line. *)
Lemma re_sub_lines (t : text) :
  lines (re_sub p tpl t) = map (re_sub p tpl) (lines t).
Proof.
  induction t as [l Hl|l s Hl IH] using lines_ind.
  - rewrite (lines_one_line l Hl). simpl.
    now rewrite (lines_one_line _ (re_sub_one_line l Hl)).
  - rewrite re_sub_nl, (lines_nl l s Hl).
    rewrite (lines_nl _ _ (re_sub_one_line l Hl)). simpl. now rewrite IH.
Qed.
End Lines.

Lemma fix_signatures_lines uni t :
  lines (fix_signatures uni t) = map (fix_signatures uni) (lines t).
Proof. now apply re_sub_lines; [apply sig_nonempty|..]. Qed.

Lemma fix_assign_lines f t :
  lines (fix_assign f t) = map (fix_assign f) (lines t).
Proof. apply re_sub_lines; [apply assign_nonempty|now destruct f..]. Qed.

Lemma fix_iflet_lines f t :
  lines (fix_iflet f t) = map (fix_iflet f) (lines t).
Proof. apply re_sub_lines; [apply iflet_nonempty|now destruct f..]. Qed.

(** The pipeline works line by line. *)
Lemma pipeline_lines uni t :
  lines (pipeline uni t) = map (pipeline uni) (lines t).
Proof.
  unfold pipeline.
  rewrite !fix_iflet_lines, !fix_assign_lines, fix_signatures_lines.
  now rewrite !map_map.
Qed.

Lemma pipeline_id uni t :
  ~ has_sig uni t -> (forall f, ~ has_assign f t) ->
  (forall f, ~ has_iflet f t) -> pipeline uni t = t.
Proof.
  intros H1 H2 H3. unfold pipeline.
  rewrite (fix_signatures_id _ _ H1).
  rewrite (fix_assign_id main_bar t), (fix_assign_id content_bar t),
    (fix_assign_id rename_bar t) by apply H2.
  now rewrite (fix_iflet_id main_bar t), (fix_iflet_id content_bar t),
    (fix_iflet_id rename_bar t) by apply H3.
Qed.

(** ** The assignment patterns under the replacements *)

Lemma closes_app_l a b : closes a -> closes (a ++ b).
Proof.
  intros (y & v & -> & Hy). exists y, (v ++ b). now rewrite <- !app_assoc.
Qed.

Lemma closes_app_r a b : one_line a -> closes b -> closes (a ++ b).
Proof.
  intros Ha (y & v & -> & Hy). exists (a ++ y), v.
  split; [now rewrite <- app_assoc|]. now apply one_line_app.
Qed.

Lemma closes_inv a b : closes (a ++ b) -> closes a \/ (one_line a /\ closes b).
Proof.
  intros (y & v & E & Hy).
  destruct (app_cut _ _ _ _ E) as [(d & -> & ->)|(d & Hd & -> & Ed)].
  - right. apply one_line_app in Hy as [Ha Hd]. split; [exact Ha|].
    now exists d, v.
  - left. destruct d as [|c d]; [easy|]. injection Ed as <- _.
    now exists y, d.
Qed.

(** What stands between [u] and [rest] does not decide whether a [)] is
    reached, as long as the old text reached one. *)
Lemma closes_swap d m r rest :
  closes (m ++ rest) -> closes (d ++ r ++ rest) -> closes (d ++ m ++ rest).
Proof.
  intros Hm H. destruct (closes_inv _ _ H) as [Hd|[Hd _]].
  - now apply closes_app_l.
  - now apply closes_app_r.
Qed.

Lemma hits_assign_closes f s :
  hits (assign_pattern f) s = true <->
  exists z, s = assign_prefix f ++ z /\ closes z.
Proof.
  rewrite hits_assign. split.
  - intros (x & v & -> & Hx). eexists. split; [reflexivity|]. now exists x, v.
  - intros (z & -> & x & v & -> & Hx). now exists x, v.
Qed.

Lemma assign_carried f m r u rest :
  tails_clash 1 (assign_prefix f) r = true -> closes (m ++ rest) ->
  carried (hits (assign_pattern f)) m r u rest.
Proof.
  intros Hr Hm l d _ Hd Hq.
  apply hits_assign_closes in Hq as (z & E & Hz).
  destruct (lit_local _ _ _ _ _ Hr Hd E) as (d' & ->).
  rewrite <- app_assoc in E. apply app_inv_head in E. subst z.
  apply hits_assign_closes. exists (d' ++ m ++ rest).
  split; [now rewrite <- app_assoc|]. now apply (closes_swap d' m r).
Qed.

Lemma assign_not_inside f r :
  clash_tails (assign_prefix f) r = true ->
  not_inside (hits (assign_pattern f)) r.
Proof.
  intros Hr l h v E Hh. destruct (hits _ (h ++ v)) eqn:Eq; [|reflexivity].
  apply hits_assign in Eq as (x & w & Eq & _).
  now elim (lit_inside _ _ _ _ _ _ Hr E Hh Eq).
Qed.

Lemma closes_assign g x rest :
  one_line x -> closes (assign_prefix g ++ x ++ codes ")" ++ rest).
Proof.
  intros Hx. exists (assign_prefix g ++ x), rest.
  split; [now rewrite <- app_assoc|]. apply one_line_app. split; [|exact Hx].
  now destruct g.
Qed.

Lemma closes_iflet g rest : closes (iflet_text g ++ rest).
Proof.
  apply closes_app_l.
  exists (codes "if let Some(pb"), (codes " = &self." ++ field_name g).
  split; [now destruct g|reflexivity].
Qed.

(** No assignment pattern comes back through a later substitution. *)
Lemma fix_assign_keeps_assign f g t :
  ~ has_assign f t -> ~ has_assign f (fix_assign g t).
Proof.
  rewrite <- !free_assign. apply (re_sub_keeps_free _ _ (assign_nonempty g)).
  intros u s m rest c E.
  destruct (match_at_assign_inv _ _ _ _ _ E) as (x & Hx & _ & -> & -> & ->).
  unfold expand, assign_template. cbn [map concat expand_item group Nat.eqb].
  rewrite app_nil_r, <- !app_assoc. apply edit_free.
  - apply assign_carried; [now destruct f, g|now apply closes_assign].
  - apply assign_not_inside. now destruct f, g.
Qed.

Lemma fix_iflet_keeps_assign f g t :
  ~ has_assign f t -> ~ has_assign f (fix_iflet g t).
Proof.
  rewrite <- !free_assign. apply (re_sub_keeps_free _ _ (iflet_nonempty g)).
  intros u s m rest c E.
  destruct (match_at_iflet_inv _ _ _ _ _ E) as (-> & -> & ->).
  unfold expand, iflet_template. cbn [map concat expand_item].
  rewrite app_nil_r. apply edit_free.
  - apply assign_carried; [now destruct f, g|apply closes_iflet].
  - apply assign_not_inside. now destruct f, g.
Qed.

Lemma clean_to_app Q c1 c2 s :
  clean_to Q c1 (c2 ++ s) -> clean_to Q c2 s -> clean_to Q (c1 ++ c2) s.
Proof.
  intros H1 H2 l h E Hh.
  destruct (app_cut _ _ _ _ E) as [(d & -> & ->)|(d & Hd & -> & ->)].
  - now apply (H2 d h).
  - rewrite <- app_assoc. now apply (H1 l d).
Qed.

Lemma doubled_tail f l r : ~ doubled f (l ++ r) -> ~ doubled f r.
Proof.
  intros H (l' & x & v & -> & Hx). apply H. exists (l ++ l'), x, v.
  now rewrite <- app_assoc.
Qed.

(** Where no capture holds the prefix again, the pass of a field leaves
    none of its assignments. *)
Lemma fix_assign_clears f t : ~ doubled f t -> ~ has_assign f (fix_assign f t).
Proof.
  intros Ht. apply free_assign.
  apply (re_sub_clears_if _ _ (assign_nonempty f) (fun s => ~ doubled f s));
    [apply doubled_tail| |exact Ht].
  intros c s m rest g Hs E Hc.
  destruct (match_at_assign_inv _ _ _ _ _ E) as (x & Hx & Hn & -> & -> & ->).
  unfold expand, assign_template. cbn [map concat expand_item group Nat.eqb].
  replace (c ++ assign_head f ++ x ++ codes ")" ++ [])
    with ((c ++ assign_head f) ++ (x ++ codes ")"))
    by now rewrite app_nil_r, <- app_assoc.
  rewrite <- !app_assoc in Hc, Hs. apply clean_to_app.
  - rewrite <- app_assoc. apply (edit_clean _ (assign_prefix f)).
    + apply assign_carried; [now destruct f|now apply closes_assign].
    + apply assign_not_inside. now destruct f.
    + exact Hc.
  - intros l h E' Hh.
    destruct (hits (assign_pattern f) (h ++ rest)) eqn:Eh; [exfalso|reflexivity].
    apply hits_assign in Eh as (y & w & Eh & _).
    destruct (app_cut _ _ _ _ E') as [(d & Ed & E1)|(d & Hd & -> & ->)].
    + destruct d as [|a d]; simpl in E1.
      * subst h. destruct f; discriminate.
      * injection E1 as _ E1. symmetry in E1.
        apply app_eq_nil in E1 as [_ ->]. easy.
    + rewrite <- app_assoc in Eh.
      assert (Hl : one_line l /\ ~ In 41%N l).
      { split; [now apply one_line_app in Hx as [Hl _]|].
        intros Hin. apply Hn. apply in_app_iff. now left. }
      destruct (app_cut _ _ _ _ Eh) as [(e & Ee & E2)|(e & He & -> & _)].
      * destruct e as [|a e].
        -- rewrite app_nil_r in Ee. subst d. apply Hs.
           exists [], l, (codes ")" ++ rest).
           split; [now rewrite <- !app_assoc|exact Hl].
        -- assert (Hin : In 41%N (assign_prefix f))
             by (rewrite Ee, in_app_iff; right; injection E2 as <- _; now left).
           destruct f; simpl in Hin; intuition discriminate.
      * apply Hs. exists [], l, (e ++ codes ")" ++ rest).
        split; [now rewrite <- !app_assoc|exact Hl].
Qed.

(** ** Two prefixes of one field on a line *)

Lemma found_has q t : found (starts_with q) t = true <-> has_text q t.
Proof.
  split.
  - induction t as [|c t IH]; cbn [found]; intros H.
    + apply orb_prop in H as [H|H]; [|discriminate]. unfold starts_with in H.
      destruct (strip_prefix q []) as [v|] eqn:E; [|discriminate].
      apply strip_prefix_inv in E. now exists [], v.
    + apply orb_prop in H as [H|H].
      * unfold starts_with in H.
        destruct (strip_prefix q (c :: t)) as [v|] eqn:E; [|discriminate].
        apply strip_prefix_inv in E. now exists [], v.
      * destruct (IH H) as (l & v & ->). now exists (c :: l), v.
  - intros (l & v & ->). induction l as [|c l IH]; simpl.
    + assert (H : starts_with q (q ++ v) = true)
        by (unfold starts_with; now rewrite strip_prefix_app).
      destruct (q ++ v); cbn [found]; now rewrite H.
    + now rewrite IH, orb_true_r.
Qed.

Lemma plain_spec x : forallb plain x = true <-> one_line x /\ ~ In 41%N x.
Proof.
  unfold one_line, plain. induction x as [|c x IH]; cbn [forallb In]; [easy|].
  rewrite !andb_true_iff, IH, negb_true_iff, N.eqb_neq. intuition congruence.
Qed.

Lemma span_app_all cs w v :
  forallb cs w = true ->
  span cs (w ++ v) = (w ++ fst (span cs v), snd (span cs v)).
Proof.
  intros H. induction w as [|c w IH]; simpl in *; [now destruct (span cs v)|].
  apply andb_prop in H as [Hc Hw]. now rewrite Hc, (IH Hw).
Qed.

Lemma assign_prefix_plain f : forallb plain (assign_prefix f) = true.
Proof. now destruct f. Qed.

Lemma doubled_at_spec f s :
  doubled_at f s = true <->
  exists x v, s = assign_prefix f ++ x ++ assign_prefix f ++ v /\
              one_line x /\ ~ In 41%N x.
Proof.
  unfold doubled_at. split.
  - destruct (strip_prefix (assign_prefix f) s) as [z|] eqn:E; [|discriminate].
    apply strip_prefix_inv in E. subst s. intros H.
    apply found_has in H as (x & y & H).
    pose proof (span_app plain z) as Hz. pose proof (span_all plain z) as Hp.
    rewrite H in Hz, Hp. rewrite forallb_app in Hp.
    apply andb_prop in Hp as [Hp _]. exists x, (y ++ snd (span plain z)).
    split; [|now apply plain_spec]. f_equal.
    etransitivity; [symmetry; exact Hz|]. now rewrite <- !app_assoc.
  - intros (x & v & -> & Hx). rewrite strip_prefix_app.
    rewrite (app_assoc x), span_app_all.
    + cbn [fst]. apply found_has. exists x, (fst (span plain v)).
      now rewrite <- app_assoc.
    + rewrite forallb_app, assign_prefix_plain, andb_true_r.
      now apply plain_spec.
Qed.

Lemma free_doubled f t : free_of (doubled_at f) t <-> ~ doubled f t.
Proof.
  rewrite free_of_not. apply not_iff_compat. split.
  - intros (l & r & -> & H). apply doubled_at_spec in H as (x & v & -> & Hx).
    now exists l, x, v.
  - intros (l & x & v & -> & Hx). eexists l, _. split; [reflexivity|].
    apply doubled_at_spec. now exists x, v.
Qed.

(** A text without [c] that is a prefix of [p c q] is a prefix of [p]. *)
Lemma prefix_before (c : char) (a v p q : text) :
  ~ In c a -> a ++ v = p ++ c :: q -> exists t, p = a ++ t.
Proof.
  intros Hn E. destruct (app_cut _ _ _ _ E) as [(d & -> & _)|(d & Hd & -> & Ed)].
  - now exists d.
  - destruct d as [|b d]; [easy|]. injection Ed as <- _.
    exfalso. apply Hn. apply in_app_iff. right. now left.
Qed.

(** A replacement text [p ) q] whose part before the [)] does not hold the
    prefix, and into which the prefix cannot run, completes no pair. *)
Lemma doubled_carried f m r p q u rest :
  tails_clash 1 (assign_prefix f) r = true ->
  r = p ++ 41%N :: q ->
  found (starts_with (assign_prefix f)) p = false ->
  carried (doubled_at f) m r u rest.
Proof.
  intros Hr Er Hp l d _ Hd Hq.
  apply doubled_at_spec in Hq as (y & v & E & Hy & Hn).
  destruct (lit_local _ _ _ _ _ Hr Hd E) as (d' & ->).
  rewrite <- app_assoc in E. apply app_inv_head in E.
  destruct (app_cut _ _ _ _ E) as [(e & -> & E1)|(e & He & -> & E1)].
  - exfalso.
    assert (E2 : (e ++ assign_prefix f) ++ v = p ++ 41%N :: (q ++ rest))
      by now rewrite <- app_assoc, <- E1, Er, <- app_assoc.
    apply prefix_before in E2 as (t & ->).
    + assert (Hh : has_text (assign_prefix f) ((e ++ assign_prefix f) ++ t))
        by (exists e, t; now rewrite <- app_assoc).
      apply found_has in Hh. congruence.
    + rewrite in_app_iff. intros [H|H].
      * apply Hn. apply in_app_iff. now right.
      * pose proof (assign_prefix_plain f) as Hf.
        apply plain_spec in Hf as [_ Hf]. now apply Hf.
  - symmetry in E1.
    destruct (lit_local _ _ _ _ _ Hr He E1) as (e' & ->).
    apply doubled_at_spec. exists y, (e' ++ m ++ rest).
    split; [now rewrite <- !app_assoc|now split].
Qed.

Lemma doubled_not_inside f r :
  clash_tails (assign_prefix f) r = true -> not_inside (doubled_at f) r.
Proof.
  intros Hr l h v E Hh. destruct (doubled_at f (h ++ v)) eqn:Eq; [|reflexivity].
  apply doubled_at_spec in Eq as (x & w & Eq & _).
  now elim (lit_inside _ _ _ _ _ _ Hr E Hh Eq).
Qed.

(** The substitutions that run before the pass of a field complete no
    pair of its prefixes. *)
Lemma fix_assign_keeps_single f g t :
  ~ doubled f t -> ~ doubled f (fix_assign g t).
Proof.
  rewrite <- !free_doubled. apply (re_sub_keeps_free _ _ (assign_nonempty g)).
  intros u s m rest c E.
  destruct (match_at_assign_inv _ _ _ _ _ E) as (x & Hx & _ & -> & -> & ->).
  unfold expand, assign_template. cbn [map concat expand_item group Nat.eqb].
  rewrite app_nil_r, <- !app_assoc. apply edit_free.
  - apply (doubled_carried f _ _
             (codes "*self." ++ field_name g ++ codes ".borrow_mut(")
             (codes " = Some(")); now destruct f, g.
  - apply doubled_not_inside. now destruct f, g.
Qed.

Lemma assign_prefix_no_amp f : ~ In 38%N (assign_prefix f).
Proof. destruct f; simpl; intuition discriminate. Qed.

(** Taking [mut ] out behind an [&] completes no pair either: the [&] is
    in neither prefix, so the pair was there with [mut ] between. *)
Lemma doubled_carried_amp f u0 rest :
  carried (doubled_at f) (codes "mut ") [] (u0 ++ codes "&") rest.
Proof.
  intros l d Eu Hd Hq.
  assert (Hd0 : exists d0, d = d0 ++ [38%N]).
  { destruct (app_cut _ _ _ _ Eu) as [(e & _ & Ee)|(e & _ & _ & ->)].
    - destruct e as [|a e]; simpl in Ee; [exists []; now subst d|].
      injection Ee as _ Ee. symmetry in Ee. apply app_eq_nil in Ee as [_ ->]. easy.
    - now exists e. }
  destruct Hd0 as (d0 & ->). clear Eu Hd.
  apply doubled_at_spec in Hq as (y & v & E & Hy).
  apply plain_spec in Hy. rewrite <- app_assoc in E.
  change ([38%N] ++ [] ++ rest) with (38%N :: rest) in E.
  apply doubled_at_spec.
  pose proof (assign_prefix_no_amp f) as Hamp.
  destruct (app_cut _ _ _ _ E) as [(k & Ek & E1)|(k & Hk & -> & E1)].
  - destruct k as [|a k].
    + rewrite app_nil_r in Ek. subst d0.
      change ([] ++ y ++ assign_prefix f ++ v)
        with (y ++ assign_prefix f ++ v) in E1.
      destruct y as [|b y].
      * exfalso. destruct f; discriminate.
      * change ((b :: y) ++ assign_prefix f ++ v)
          with (b :: (y ++ assign_prefix f ++ v)) in E1.
        assert (b = 38%N) by congruence.
        assert (rest = y ++ assign_prefix f ++ v) by congruence. subst b rest.
        exists (codes "&mut " ++ y), v.
        split; [now rewrite <- !app_assoc|]. apply plain_spec.
        cbn [forallb] in Hy. apply andb_prop in Hy as [_ Hy].
        now rewrite forallb_app, Hy.
    + exfalso. assert (a = 38%N) by (cbn [app] in E1; congruence). subst a.
      apply Hamp. rewrite Ek, in_app_iff. right. now left.
  - destruct (app_cut _ _ _ _ E1) as [(j & -> & E2)|(j & Hj & -> & E2)].
    + destruct (app_cut _ _ _ _ E2) as [(i & -> & ->)|(i & Hi & Ei & E3)].
      * exists y, (i ++ 38%N :: codes "mut " ++ rest).
        split; [now rewrite <- !app_assoc|now apply plain_spec].
      * exfalso. destruct i as [|a i]; [easy|].
        assert (a = 38%N) by (cbn [app] in E3; congruence). subst a.
        apply Hamp. rewrite Ei, in_app_iff. right. now left.
    + destruct j as [|a j]; [easy|].
      change ((a :: j) ++ assign_prefix f ++ v)
        with (a :: (j ++ assign_prefix f ++ v)) in E2.
      assert (a = 38%N) by congruence.
      assert (rest = j ++ assign_prefix f ++ v) by congruence. subst a rest.
      exists (k ++ codes "&mut " ++ j), v.
      split; [now rewrite <- !app_assoc|]. apply plain_spec.
      rewrite forallb_app in Hy. apply andb_prop in Hy as [Hk' Hj'].
      cbn [forallb] in Hj'. apply andb_prop in Hj' as [_ Hj'].
      now rewrite !forallb_app, Hk', Hj'.
Qed.

Lemma fix_signatures_keeps_single uni f t :
  ~ doubled f t -> ~ doubled f (fix_signatures uni t).
Proof.
  rewrite <- !free_doubled. apply (re_sub_keeps_free _ _ (sig_nonempty uni)).
  intros u s m rest c E.
  destruct (match_at_sig_inv _ _ _ _ _ E) as (name & _ & -> & -> & ->).
  unfold expand, sig_template. cbn [map concat expand_item group Nat.eqb].
  replace (u ++ (codes "pub fn " ++ name ++ codes "(&mut self") ++ rest)
    with (((u ++ codes "pub fn " ++ name ++ codes "(") ++ codes "&")
            ++ codes "mut " ++ codes "self" ++ rest)
    by now rewrite <- !app_assoc.
  replace (u ++ (codes "pub fn " ++ name ++ codes "(&self" ++ []) ++ rest)
    with (((u ++ codes "pub fn " ++ name ++ codes "(") ++ codes "&")
            ++ [] ++ codes "self" ++ rest)
    by now rewrite <- !app_assoc.
  apply edit_free; [apply doubled_carried_amp|].
  intros l h v Eh Hh. symmetry in Eh. apply app_eq_nil in Eh as [_ ->]. easy.
Qed.

(** Without such a pair in the input, no assignment pattern is left
    after one pass. *)
Lemma pipeline_no_assign uni t :
  (forall f, ~ doubled f t) -> forall f, ~ has_assign f (pipeline uni t).
Proof.
  intros H f. unfold pipeline. do 3 apply fix_iflet_keeps_assign.
  destruct f.
  - do 2 apply fix_assign_keeps_assign. apply fix_assign_clears.
    apply fix_signatures_keeps_single, H.
  - apply fix_assign_keeps_assign. apply fix_assign_clears.
    apply fix_assign_keeps_single, fix_signatures_keeps_single, H.
  - apply fix_assign_clears.
    do 2 apply fix_assign_keeps_single. apply fix_signatures_keeps_single, H.
Qed.

(** ** The script, step by step *)

Lemma read_file_world path w r w' : read_file path w = (r, w') -> w' = w.
Proof.
  unfold read_file. destruct (fs w !! path) as [f|]; [destruct (readable f)|];
    now intros [= _ <-].
Qed.

Lemma read_file_ok path w f :
  fs w !! path = Some f -> readable f = true ->
  read_file path w = (inr (data f), w).
Proof. intros H1 H2. unfold read_file. now rewrite H1, H2. Qed.



Lemma main_read_error uni w e w1 :
  read_file target w = (inl e, w1) -> main uni w = (inl e, w).
Proof.
  intros H. rewrite (read_file_world _ _ _ _ H) in H.
  unfold main, mbind, IO_bind. now rewrite H.
Qed.

Lemma main_write_error uni w content e w2 :
  read_file target w = (inr content, w) ->
  write_file target (pipeline uni content) w = (inl e, w2) ->
  main uni w = (inl e, w2).
Proof. intros H1 H2. unfold main, mbind, IO_bind. now rewrite H1, H2. Qed.




(** Checks that decide the hypotheses on a given text. *)
Lemma no_sig_check uni t :
  found (hits (sig_pattern uni)) t = false -> ~ has_sig uni t.
Proof. intros H. now apply free_sig, found_free. Qed.

Lemma no_assign_check f t :
  found (hits (assign_pattern f)) t = false -> ~ has_assign f t.
Proof. intros H. now apply free_assign, found_free. Qed.

Lemma no_iflet_check f t :
  found (hits (iflet_pattern f)) t = false -> ~ has_iflet f t.
Proof. intros H. now apply free_iflet, found_free. Qed.

Lemma no_doubled_check f t : found (doubled_at f) t = false -> ~ doubled f t.
Proof. intros H. now apply free_doubled, found_free. Qed.

Lemma no_text_check q t : found (starts_with q) t = false -> ~ has_text q t.
Proof.
  intros H (l & v & ->). apply found_free in H.
  specialize (H l (q ++ v) eq_refl). unfold starts_with in H.
  now rewrite strip_prefix_app in H.
Qed.

(** * The claims *)




(** C2, as stated, fails twice: an argument with a line feed before its
    first [)] is not rewritten at all, and for [f(a), g(b)] the group holds
    [f(a] only. *)
Lemma fix_assign_not_every_expr :
  fix_assign main_bar multiline_assignment = multiline_assignment /\
  fix_assign main_bar multiline_assignment
  <> unlines [codes "*self.main_bar.borrow_mut() = Some(";
              codes "    make_bar()"; codes ");"] /\
  match_at (assign_pattern main_bar) (codes "self.main_bar = Some(f(a), g(b))")
  = Some (codes "self.main_bar = Some(f(a)", codes ", g(b))", [(1, codes "f(a")]).
Proof.
  split; [|split]; [vm_compute; reflexivity| |vm_compute; reflexivity].
  intros H. apply (f_equal (@length char)) in H. vm_compute in H. discriminate.
Qed.

(** C2 (as amended). Where the text before holds no [self.main_bar = Some(]
    and the argument [x], up to its first [)], has no line feed, rule 2
    captures [x], rewrites the assignment in place and goes on behind that
    [)]; with a line feed before the first [)] there is no match. *)
Theorem fix_assign_main_bar (pre x post : text) :
  one_line x -> ~ In 41%N x -> ~ has_text (codes "self.main_bar = Some(") pre ->
  match_at (assign_pattern main_bar)
    (codes "self.main_bar = Some(" ++ x ++ codes ")" ++ post)
  = Some (codes "self.main_bar = Some(" ++ x ++ codes ")", post, [(1, x)]) /\
  fix_assign main_bar
    (pre ++ codes "self.main_bar = Some(" ++ x ++ codes ")" ++ post)
  = pre ++ codes "*self.main_bar.borrow_mut() = Some(" ++ x ++ codes ")"
        ++ fix_assign main_bar post /\
  forall rest,
    match_at (assign_pattern main_bar)
      (codes "self.main_bar = Some(" ++ x ++ newline :: rest) = None.
Proof.
  intros Hx Hn Hpre. split; [|split].
  - exact (match_at_assign_here main_bar x post Hx Hn).
  - exact (fix_assign_first main_bar pre x post Hx Hn Hpre).
  - intros rest. rewrite match_at_assign. unfold assign_match.
    change (codes "self.main_bar = Some(") with (assign_prefix main_bar).
    rewrite strip_prefix_app.
    now rewrite (scan_to_break dot 41%N x newline rest Hx Hn).
Qed.

Lemma fix_assign_main_bar_witness :
  fix_assign main_bar (codes "    self.main_bar = Some(f(a), g(b));")
  = codes "    *self.main_bar.borrow_mut() = Some(f(a), g(b));".
Proof.
  pose proof (fix_assign_main_bar (codes "    ") (codes "f(a") (codes ", g(b));"))
    as H.
  destruct H as (_ & H & _).
  - reflexivity.
  - vm_compute. intuition discriminate.
  - apply no_text_check. vm_compute. reflexivity.
  - etransitivity; [exact H|]. vm_compute. reflexivity.
Defined.

(** C3. A text with none of the seven patterns comes out unchanged. *)
Theorem pipeline_identity (uni : charset) (t : text) :
  ~ has_sig uni t -> (forall f, ~ has_assign f t) ->
  (forall f, ~ has_iflet f t) -> pipeline uni t = t.
Proof. apply pipeline_id. Qed.

Lemma pipeline_identity_witness :
  pipeline ascii_only (codes "fn reset(&mut self) { self.count = Some(0); }")
  = codes "fn reset(&mut self) { self.count = Some(0); }".
Proof.
  apply (pipeline_identity ascii_only).
  - apply no_sig_check. vm_compute. reflexivity.
  - intros f. apply no_assign_check. destruct f; vm_compute; reflexivity.
  - intros f. apply no_iflet_check. destruct f; vm_compute; reflexivity.
Defined.

(** C4. The first declaration [pub fn NAME(&mut self] becomes
    [pub fn NAME(&self] with the text before it, the name and the text
    behind it kept; the scan goes on behind it, so that a text with one
    declaration changes in its receiver only, and no declaration with
    [&mut self] is left in the result. *)
Theorem fix_signatures_declaration (uni : charset) (pre name post : text) :
  is_name uni name -> ~ has_sig uni pre ->
  fix_signatures uni
    (pre ++ codes "pub fn " ++ name ++ codes "(&mut self" ++ post)
  = pre ++ codes "pub fn " ++ name ++ codes "(&self" ++ fix_signatures uni post /\
  (~ has_sig uni post ->
   fix_signatures uni
     (pre ++ codes "pub fn " ++ name ++ codes "(&mut self" ++ post)
   = pre ++ codes "pub fn " ++ name ++ codes "(&self" ++ post) /\
  ~ has_sig uni
      (fix_signatures uni
         (pre ++ codes "pub fn " ++ name ++ codes "(&mut self" ++ post)).
Proof.
  intros Hn Hpre. split; [|split].
  - now apply fix_signatures_first.
  - intros Hpost. rewrite fix_signatures_first by assumption.
    now rewrite (fix_signatures_id uni post Hpost).
  - apply fix_signatures_clears.
Qed.

Lemma fix_signatures_declaration_witness :
  fix_signatures ascii_only
    (codes "    pub fn set_total(&mut self, total: u64) -> bool {")
  = codes "    pub fn set_total(&self, total: u64) -> bool {".
Proof.
  pose proof (fix_signatures_declaration ascii_only (codes "    ")
                (codes "set_total") (codes ", total: u64) -> bool {")) as H.
  destruct H as (_ & H & _).
  - split; [discriminate|reflexivity].
  - apply no_sig_check. vm_compute. reflexivity.
  - etransitivity; [apply H|vm_compute; reflexivity].
    apply no_sig_check. vm_compute. reflexivity.
Defined.

(** C5. The three assignment lines of the specification. *)
Theorem fix_assign_make_bar :
  fix_assign main_bar (codes "self.main_bar = Some(make_bar());")
  = codes "*self.main_bar.borrow_mut() = Some(make_bar());" /\
  fix_assign content_bar (codes "self.content_bar = Some(make_bar());")
  = codes "*self.content_bar.borrow_mut() = Some(make_bar());" /\
  fix_assign rename_bar (codes "self.rename_bar = Some(make_bar());")
  = codes "*self.rename_bar.borrow_mut() = Some(make_bar());".
Proof. repeat split; vm_compute; reflexivity. Qed.

(** C6. The [if let] line of the specification, under the third pattern of
    rule 5 alone and under its three patterns in their order. *)
Theorem fix_iflet_rename_bar :
  fix_iflet rename_bar (codes "if let Some(pb) = &self.rename_bar {")
  = codes "if let Some(pb) = self.rename_bar.borrow().as_ref() {" /\
  fix_iflet rename_bar (fix_iflet content_bar (fix_iflet main_bar
    (codes "if let Some(pb) = &self.rename_bar {")))
  = codes "if let Some(pb) = self.rename_bar.borrow().as_ref() {".
Proof. split; vm_compute; reflexivity. Qed.





(** C9. No pattern and no template holds a line feed and no class accepts
    one; so the pipeline keeps the number of lines, and a line with none of
    the patterns comes out as it went in, at its place. *)
Theorem pipeline_keeps_lines (uni : charset) (t : text) :
  (blind (sig_pattern uni) = true /\ blind_template sig_template = true /\
   forall f, blind (assign_pattern f) = true /\
             blind_template (assign_template f) = true /\
             blind (iflet_pattern f) = true /\
             blind_template (iflet_template f) = true) /\
  length (lines (pipeline uni t)) = length (lines t) /\
  forall i l, nth_error (lines t) i = Some l -> untouched uni l ->
    nth_error (lines (pipeline uni t)) i = Some l.
Proof.
  split; [|split].
  - split; [reflexivity|]. split; [reflexivity|]. now intros [].
  - now rewrite pipeline_lines, length_map.
  - intros i l Hi (H1 & H2 & H3).
    rewrite pipeline_lines, nth_error_map, Hi. simpl. now rewrite pipeline_id.
Qed.

Lemma pipeline_keeps_lines_witness :
  length (lines (pipeline ascii_only fixture)) = 13 /\
  nth_error (lines (pipeline ascii_only fixture)) 6
  = Some (codes "    fn reset(&mut self) {").
Proof.
  destruct (pipeline_keeps_lines ascii_only fixture) as (_ & Hlen & Hline).
  split; [rewrite Hlen; reflexivity|].
  apply Hline; [reflexivity|]. split; [|split].
  - apply no_sig_check. vm_compute. reflexivity.
  - intros f. apply no_assign_check. destruct f; vm_compute; reflexivity.
  - intros f. apply no_iflet_check. destruct f; vm_compute; reflexivity.
Defined.

(** C10. When the read fails the run ends there, with status 1: the file
    store, and with it the target, is as it was, and nothing is printed. *)
Theorem read_failure_keeps_file (uni : charset) (w w' : world) (e : exn) :
  read_file target w = (inl e, w') ->
  snd (run uni w) = w /\ fst (run uni w) = 1 /\ fst (main uni w) = inl e.
Proof.
  intros H. unfold run. rewrite (main_read_error uni w e w' H). now repeat split.
Qed.

Lemma read_failure_keeps_file_witness :
  run ascii_only empty_world = (1, empty_world) /\
  fst (main ascii_only empty_world) = inl FileNotFoundError.
Proof.
  destruct (read_failure_keeps_file ascii_only empty_world empty_world
              FileNotFoundError eq_refl) as (H1 & H2 & H3).
  split; [|exact H3]. unfold run in *. simpl in *. now rewrite H1, H2.
Defined.

(** * Further properties of the script *)

(** ** Counting the replacements *)

Section Count.
Variables (p : regex) (tpl : template).
Hypothesis Hne : nonempty_hits p.

Lemma count_scan_fuel n : forall k s,
  length s <= n -> length s <= k -> count_scan n p s = count_scan k p s.
Proof.
  induction n as [|n IH]; intros k s Hn Hk.
  - destruct s; [|simpl in Hn; lia]. now destruct k.
  - destruct s as [|c s]; [now destruct k|].
    destruct k as [|k]; [simpl in Hk; lia|]. simpl in Hn, Hk. cbn [count_scan].
    destruct (match_at p (c :: s)) as [[[m rest] g]|] eqn:E.
    + pose proof (match_at_split _ _ _ _ _ E) as Hs.
      destruct m as [|a m]; [now elim (Hne _ _ _ _ E)|].
      assert (length rest <= length s).
      { apply (f_equal (@length _)) in Hs. rewrite length_app in Hs.
        simpl in Hs. lia. }
      f_equal. apply IH; lia.
    + apply IH; lia.
Qed.

Lemma re_count_nil : re_count p [] = 0.
Proof. unfold re_count. simpl. now rewrite (match_at_nil p Hne). Qed.

Lemma re_count_hit s m rest g :
  match_at p s = Some (m, rest, g) -> re_count p s = S (re_count p rest).
Proof.
  intros E. pose proof (match_at_split _ _ _ _ _ E) as Hs.
  destruct m as [|a m]; [now elim (Hne _ _ _ _ E)|].
  destruct s as [|c s]; [discriminate|].
  unfold re_count. cbn [length count_scan]. rewrite E. f_equal.
  apply count_scan_fuel; [|lia].
  apply (f_equal (@length _)) in Hs. rewrite length_app in Hs. simpl in Hs. lia.
Qed.

Lemma re_count_miss c s :
  match_at p (c :: s) = None -> re_count p (c :: s) = re_count p s.
Proof. intros E. unfold re_count. cbn [length count_scan]. now rewrite E. Qed.

(** No replacement exactly when the pattern matches nowhere. *)
Lemma re_count_zero (s : text) : re_count p s = 0 <-> free_of (hits p) s.
Proof.
  induction s as [|c s Hmiss IH|s m rest g E IH] using (scan_ind p Hne).
  - rewrite re_count_nil. split; [|reflexivity]. intros _ l r E.
    symmetry in E. apply app_eq_nil in E as [_ ->].
    unfold hits. now rewrite (match_at_nil p Hne).
  - rewrite (re_count_miss _ _ Hmiss), IH. split.
    + intros H [|a l] r E.
      * simpl in E. subst r. unfold hits. now rewrite Hmiss.
      * injection E as _ E. now apply (H l).
    + apply free_of_cons.
  - rewrite (re_count_hit _ _ _ _ E). split; [discriminate|].
    intros H. pose proof (free_of_head _ _ H) as Hh. unfold hits in Hh.
    now rewrite E in Hh.
Qed.

(** Every replacement shortens the text by [d] characters. *)
Lemma re_sub_shrinks (d : nat) :
  (forall s m rest g, match_at p s = Some (m, rest, g) ->
     length (expand tpl g) + d = length m) ->
  forall s : text, length (re_sub p tpl s) + d * re_count p s = length s.
Proof.
  intros Hd s.
  induction s as [|c s Hmiss IH|s m rest g E IH] using (scan_ind p Hne).
  - rewrite (re_sub_nil _ _ Hne), re_count_nil. simpl. lia.
  - rewrite (re_sub_miss _ _ _ _ Hmiss), (re_count_miss _ _ Hmiss). simpl. lia.
  - rewrite (re_sub_hit _ _ Hne _ _ _ _ E), (re_count_hit _ _ _ _ E), length_app.
    rewrite (match_at_split _ _ _ _ _ E), length_app.
    pose proof (Hd _ _ _ _ E). lia.
Qed.

(** Every replacement lengthens the text by [d] characters. *)
Lemma re_sub_grows (d : nat) :
  (forall s m rest g, match_at p s = Some (m, rest, g) ->
     length (expand tpl g) = length m + d) ->
  forall s : text, length (re_sub p tpl s) = length s + d * re_count p s.
Proof.
  intros Hd s.
  induction s as [|c s Hmiss IH|s m rest g E IH] using (scan_ind p Hne).
  - rewrite (re_sub_nil _ _ Hne), re_count_nil. simpl. lia.
  - rewrite (re_sub_miss _ _ _ _ Hmiss), (re_count_miss _ _ Hmiss). simpl. lia.
  - rewrite (re_sub_hit _ _ Hne _ _ _ _ E), (re_count_hit _ _ _ _ E), length_app.
    rewrite (match_at_split _ _ _ _ _ E), length_app.
    pose proof (Hd _ _ _ _ E). lia.
Qed.

(** A rule whose replacements only take characters out gives a
    subsequence of its input. *)
Lemma re_sub_deletes :
  (forall s m rest g, match_at p s = Some (m, rest, g) ->
     expand tpl g `sublist_of` m) ->
  forall s : text, re_sub p tpl s `sublist_of` s.
Proof.
  intros Hd s.
  induction s as [|c s Hmiss IH|s m rest g E IH] using (scan_ind p Hne).
  - now rewrite (re_sub_nil _ _ Hne).
  - rewrite (re_sub_miss _ _ _ _ Hmiss). now constructor.
  - rewrite (re_sub_hit _ _ Hne _ _ _ _ E).
    rewrite (match_at_split _ _ _ _ _ E).
    apply sublist_app; [now apply (Hd _ _ _ _ E)|assumption].
Qed.

(** A rule whose replacements only put characters in has its input as a
    subsequence of its result. *)
Lemma re_sub_inserts :
  (forall s m rest g, match_at p s = Some (m, rest, g) ->
     m `sublist_of` expand tpl g) ->
  forall s : text, s `sublist_of` re_sub p tpl s.
Proof.
  intros Hd s.
  induction s as [|c s Hmiss IH|s m rest g E IH] using (scan_ind p Hne).
  - now rewrite (re_sub_nil _ _ Hne).
  - rewrite (re_sub_miss _ _ _ _ Hmiss). now constructor.
  - rewrite (re_sub_hit _ _ Hne _ _ _ _ E).
    rewrite (match_at_split _ _ _ _ _ E).
    apply sublist_app; [now apply (Hd _ _ _ _ E)|assumption].
Qed.
End Count.

(** ** What one replacement of each rule does to the text *)

Lemma sig_expand name :
  expand sig_template [(1, name)] = codes "pub fn " ++ name ++ codes "(&self".
Proof.
  unfold expand, sig_template. cbn [map concat expand_item group Nat.eqb].
  now rewrite app_nil_r.
Qed.

Lemma assign_expand f x :
  expand (assign_template f) [(1, x)] = assign_head f ++ x ++ codes ")".
Proof.
  unfold expand, assign_template. cbn [map concat expand_item group Nat.eqb].
  now rewrite app_nil_r.
Qed.

Lemma iflet_expand f g : expand (iflet_template f) g = iflet_repl f.
Proof.
  unfold expand, iflet_template. cbn [map concat expand_item].
  now rewrite app_nil_r.
Qed.

Lemma sig_shrinks uni s m rest g :
  match_at (sig_pattern uni) s = Some (m, rest, g) ->
  length (expand sig_template g) + 4 = length m.
Proof.
  intros E.
  destruct (match_at_sig_inv _ _ _ _ _ E) as (name & _ & _ & -> & ->).
  rewrite sig_expand, !length_app. simpl. lia.
Qed.

Lemma sig_deletes uni s m rest g :
  match_at (sig_pattern uni) s = Some (m, rest, g) ->
  expand sig_template g `sublist_of` m.
Proof.
  intros E.
  destruct (match_at_sig_inv _ _ _ _ _ E) as (name & _ & _ & -> & ->).
  rewrite sig_expand. do 2 (apply sublist_app; [reflexivity|]).
  vm_compute. repeat constructor.
Qed.

Lemma assign_adds f s m rest g :
  match_at (assign_pattern f) s = Some (m, rest, g) ->
  length (expand (assign_template f) g) = length m + 14.
Proof.
  intros E.
  destruct (match_at_assign_inv _ _ _ _ _ E) as (x & _ & _ & _ & -> & ->).
  rewrite assign_expand, !length_app. destruct f; simpl; lia.
Qed.

Lemma assign_inserts f s m rest g :
  match_at (assign_pattern f) s = Some (m, rest, g) ->
  m `sublist_of` expand (assign_template f) g.
Proof.
  intros E.
  destruct (match_at_assign_inv _ _ _ _ _ E) as (x & _ & _ & _ & -> & ->).
  rewrite assign_expand. apply sublist_app; [|reflexivity].
  destruct f; vm_compute; repeat constructor.
Qed.

Lemma iflet_adds f s m rest g :
  match_at (iflet_pattern f) s = Some (m, rest, g) ->
  length (expand (iflet_template f) g) = length m + 17.
Proof.
  intros E. destruct (match_at_iflet_inv _ _ _ _ _ E) as (_ & -> & ->).
  rewrite iflet_expand. now destruct f.
Qed.

(** ** The table behind [\w] *)

Lemma same_on_app uni uni' l r :
  same_on uni uni' (l ++ r) -> same_on uni uni' l /\ same_on uni uni' r.
Proof.
  intros H. split; intros c Hc; apply H; apply in_app_iff; [now left|now right].
Qed.

Lemma word_same uni uni' s c :
  same_on uni uni' s -> In c s -> word uni c = word uni' c.
Proof.
  intros H Hc. unfold word. destruct (N.ltb_spec c 128); [reflexivity|].
  now apply H.
Qed.

Lemma span_same uni uni' s :
  same_on uni uni' s -> span (word uni) s = span (word uni') s.
Proof.
  induction s as [|c s IH]; intros H; [reflexivity|]. cbn [span].
  rewrite <- (word_same uni uni' (c :: s) c H) by now left.
  rewrite IH; [reflexivity|]. intros a Ha. apply H. now right.
Qed.

Lemma match_at_sig_same uni uni' s :
  same_on uni uni' s ->
  match_at (sig_pattern uni) s = match_at (sig_pattern uni') s.
Proof.
  intros H. rewrite !match_at_sig. unfold sig_match.
  destruct (strip_prefix (codes "pub fn ") s) as [s1|] eqn:E; [|reflexivity].
  apply strip_prefix_inv in E. rewrite E in H.
  apply same_on_app in H as [_ H]. now rewrite (span_same uni uni' s1 H).
Qed.

Lemma fix_signatures_same uni uni' (t : text) :
  same_on uni uni' t -> fix_signatures uni t = fix_signatures uni' t.
Proof.
  unfold fix_signatures.
  induction t as [|c s Hmiss IH|s m rest g E IH]
    using (scan_ind (sig_pattern uni) (sig_nonempty uni)); intros H.
  - now rewrite !re_sub_nil by apply sig_nonempty.
  - rewrite (re_sub_miss _ _ _ _ Hmiss).
    rewrite (match_at_sig_same uni uni' _ H) in Hmiss.
    rewrite (re_sub_miss _ _ _ _ Hmiss), IH; [reflexivity|].
    now apply (same_on_app uni uni' [c] s).
  - rewrite (re_sub_hit _ _ (sig_nonempty uni) _ _ _ _ E).
    pose proof (match_at_split _ _ _ _ _ E) as Hs.
    rewrite (match_at_sig_same uni uni' _ H) in E.
    rewrite (re_sub_hit _ _ (sig_nonempty uni') _ _ _ _ E), IH; [reflexivity|].
    rewrite Hs in H. now apply same_on_app in H.
Qed.

Lemma same_on_below uni uni' t :
  forallb (fun c => N.ltb c 128) t = true -> same_on uni uni' t.
Proof.
  rewrite forallb_forall. intros H c Hc Hge. apply H, N.ltb_lt in Hc. lia.
Qed.

(** ** The first [if let] of a field *)

Lemma iflet_clean_before f pre r v :
  tails_clash 1 (iflet_text f) r = true -> ~ has_iflet f pre ->
  clean_to (hits (iflet_pattern f)) pre (r ++ v).
Proof.
  intros Hr Hpre l h -> Hh.
  destruct (hits (iflet_pattern f) (h ++ r ++ v)) eqn:E; [|reflexivity].
  apply hits_iflet in E as (w & E).
  destruct (lit_local _ _ _ _ _ Hr Hh E) as (u' & ->).
  exfalso. apply Hpre. now exists l, u'.
Qed.

Lemma fix_iflet_hit f pre post :
  ~ has_iflet f pre ->
  fix_iflet f (pre ++ iflet_text f ++ post)
  = pre ++ iflet_repl f ++ fix_iflet f post.
Proof.
  intros Hpre. unfold fix_iflet. rewrite re_sub_skip.
  - rewrite (re_sub_hit _ _ (iflet_nonempty f) _ _ _ _
               (match_at_iflet_here f post)).
    now rewrite iflet_expand.
  - apply iflet_clean_before; [now destruct f|assumption].
Qed.

(** ** Texts too short for a pattern *)

Lemma has_sig_length uni t : has_sig uni t -> 18 <= length t.
Proof.
  intros (l & name & v & -> & Hn & _). rewrite !length_app.
  destruct name; [easy|]. simpl. lia.
Qed.

Lemma has_assign_length f t : has_assign f t -> 22 <= length t.
Proof.
  intros (l & x & v & -> & _). rewrite !length_app. destruct f; simpl; lia.
Qed.

Lemma has_iflet_length f t : has_iflet f t -> 32 <= length t.
Proof.
  intros (l & v & ->). rewrite !length_app. destruct f; simpl; lia.
Qed.

(** ** The write, case by case *)

Lemma write_file_locked path s w f :
  fs w !! path = Some f -> writable f = false ->
  write_file path s w = (inl PermissionError, w).
Proof.
  intros H1 H2. unfold write_file, mbind, IO_bind, open_w. now rewrite H1, H2.
Qed.





(** ** Line feeds *)

Lemma fix_signatures_nl uni s1 s2 :
  fix_signatures uni (s1 ++ newline :: s2)
  = fix_signatures uni s1 ++ newline :: fix_signatures uni s2.
Proof. now apply re_sub_nl; [apply sig_nonempty|]. Qed.

Lemma fix_assign_nl f s1 s2 :
  fix_assign f (s1 ++ newline :: s2)
  = fix_assign f s1 ++ newline :: fix_assign f s2.
Proof. apply re_sub_nl; [apply assign_nonempty|now destruct f]. Qed.

Lemma fix_iflet_nl f s1 s2 :
  fix_iflet f (s1 ++ newline :: s2)
  = fix_iflet f s1 ++ newline :: fix_iflet f s2.
Proof. apply re_sub_nl; [apply iflet_nonempty|now destruct f]. Qed.

Lemma pipeline_nl uni s1 s2 :
  pipeline uni (s1 ++ newline :: s2)
  = pipeline uni s1 ++ newline :: pipeline uni s2.
Proof.
  unfold pipeline.
  now rewrite fix_signatures_nl, !fix_assign_nl, !fix_iflet_nl.
Qed.

Lemma pipeline_nil uni : pipeline uni [] = [].
Proof. reflexivity. Qed.


(** ** The three patterns of rule 5, in any order *)

(** No occurrence of [if let Some(pb) = &self.G] starts inside [c]. *)
Lemma iflet_clean_in g c v :
  tails_clash 0 c (iflet_text g) = true ->
  clean_to (hits (iflet_pattern g)) c v.
Proof.
  intros Hc l h -> Hh.
  destruct (hits (iflet_pattern g) (h ++ v)) eqn:E; [|reflexivity].
  apply hits_iflet in E as (w & E). exfalso. revert E.
  apply (tails_clash_neq 0 (l ++ h) (iflet_text g) l h);
    [assumption|reflexivity|lia|assumption].
Qed.

(** A replacement of another field to the right completes no occurrence. *)
Lemma iflet_kept_miss f g (s : text) :
  f <> g -> forall u, u <> [] ->
  hits (iflet_pattern f) (u ++ fix_iflet g s) = true ->
  hits (iflet_pattern f) (u ++ s) = true.
Proof.
  intros Hfg. unfold fix_iflet.
  induction s as [|c s Hmiss IH|s m rest g0 E _]
    using (scan_ind (iflet_pattern g) (iflet_nonempty g)); intros u Hu H.
  - now rewrite re_sub_nil in H by apply iflet_nonempty.
  - rewrite (re_sub_miss _ _ _ _ Hmiss) in H.
    change (u ++ c :: s) with (u ++ [c] ++ s). rewrite app_assoc.
    apply IH; [now destruct u|]. now rewrite <- app_assoc.
  - rewrite (re_sub_hit _ _ (iflet_nonempty g) _ _ _ _ E), iflet_expand in H.
    assert (Hc : tails_clash 1 (iflet_text f) (iflet_repl g) = true)
      by now destruct f, g.
    exact (iflet_left_local f (iflet_repl g) Hc u _ Hu H s).
Qed.

Lemma fix_iflet_miss f c (s : text) :
  hits (iflet_pattern f) (c :: s) = false ->
  fix_iflet f (c :: s) = c :: fix_iflet f s.
Proof.
  intros H. apply re_sub_miss. unfold hits in H.
  now destruct (match_at (iflet_pattern f) (c :: s)).
Qed.

(** Where the first field's pattern matches at the head. *)
Lemma fix_iflet_comm_hit f g (rest : text) :
  f <> g ->
  fix_iflet f (fix_iflet g rest) = fix_iflet g (fix_iflet f rest) ->
  fix_iflet f (fix_iflet g (iflet_text f ++ rest))
  = fix_iflet g (fix_iflet f (iflet_text f ++ rest)).
Proof.
  intros Hfg IH.
  assert (H1 : fix_iflet g (iflet_text f ++ rest)
               = iflet_text f ++ fix_iflet g rest).
  { apply re_sub_skip, iflet_clean_in.
    destruct f, g; try reflexivity; now elim Hfg. }
  assert (H2 : forall v, fix_iflet g (iflet_repl f ++ v)
                         = iflet_repl f ++ fix_iflet g v).
  { intros v. apply re_sub_skip, iflet_clean_in. now destruct f, g. }
  assert (H3 : forall v, fix_iflet f (iflet_text f ++ v)
                         = iflet_repl f ++ fix_iflet f v).
  { intros v. apply (fix_iflet_hit f [] v). intros (l & w & E).
    symmetry in E. apply app_eq_nil in E as [_ E].
    apply app_eq_nil in E as [E _]. now destruct f. }
  now rewrite H1, !H3, H2, IH.
Qed.

Lemma fix_iflet_comm_ne f g :
  f <> g -> forall t : text,
  fix_iflet f (fix_iflet g t) = fix_iflet g (fix_iflet f t).
Proof.
  intros Hfg t. remember (length t) as n eqn:Hn. revert t Hn.
  induction n as [n IH] using lt_wf_ind. intros t ->.
  destruct t as [|c s].
  { unfold fix_iflet. now rewrite !re_sub_nil by apply iflet_nonempty. }
  destruct (hits (iflet_pattern f) (c :: s)) eqn:Ef.
  { apply hits_iflet in Ef as (rest & E). rewrite E in *.
    apply fix_iflet_comm_hit; [assumption|].
    apply (IH (length rest)); [|reflexivity].
    rewrite length_app. destruct f; simpl; lia. }
  destruct (hits (iflet_pattern g) (c :: s)) eqn:Eg.
  { apply hits_iflet in Eg as (rest & E). rewrite E in *. symmetry.
    apply fix_iflet_comm_hit; [now intros ->|]. symmetry.
    apply (IH (length rest)); [|reflexivity].
    rewrite length_app. destruct g; simpl; lia. }
  rewrite (fix_iflet_miss f c s Ef), (fix_iflet_miss g c s Eg).
  rewrite (fix_iflet_miss f c (fix_iflet g s)),
    (fix_iflet_miss g c (fix_iflet f s)).
  - f_equal. apply (IH (length s)); simpl; [lia|reflexivity].
  - destruct (hits (iflet_pattern g) (c :: fix_iflet f s)) eqn:E; [|reflexivity].
    apply (iflet_kept_miss g f s (fun e => Hfg (eq_sym e)) [c]) in E; [|easy].
    simpl in E. congruence.
  - destruct (hits (iflet_pattern f) (c :: fix_iflet g s)) eqn:E; [|reflexivity].
    apply (iflet_kept_miss f g s Hfg [c]) in E; [|easy].
    simpl in E. congruence.
Qed.

(** ** The characters of the output *)

Section Chars.
Variables (p : regex) (tpl : template) (Q : char -> Prop).
Hypothesis Hne : nonempty_hits p.
Hypothesis Hnew : forall s m rest g c,
  match_at p s = Some (m, rest, g) -> In c (expand tpl g) -> In c m \/ Q c.

End Chars.





(** ** The substitutions and the run as a whole *)

(** X1. The pipeline changes a text exactly when one of the seven patterns
    occurs in it: a text with a declaration [pub fn NAME(&mut self], an
    assignment [self.F = Some(...)] closed on its line or an
    [if let Some(pb) = &self.F] never comes out as it went in. *)
Theorem pipeline_changes_iff (uni : charset) (t : text) :
  pipeline uni t = t <-> untouched uni t.
Proof.
  split.
  - intros H.
    assert (H1 : ~ has_sig uni t) by (rewrite <- H; apply pipeline_no_sig).
    split; [exact H1|split].
    + apply fixed_no_assign. unfold pipeline in H.
      now rewrite (fix_signatures_id _ _ H1) in H.
    + intros f. rewrite <- H. apply pipeline_no_iflet.
  - intros (H1 & H2 & H3). now apply pipeline_id.
Qed.

(** X2. Whatever the input, the output of the pipeline holds no
    declaration [pub fn NAME(&mut self] and no [if let Some(pb) = &self.F];
    and when no field has its [self.F = Some(] twice with neither [)] nor
    line feed between, it holds none of the seven patterns at all. *)
Theorem pipeline_leaves_none (uni : charset) (t : text) :
  ~ has_sig uni (pipeline uni t) /\
  (forall f, ~ has_iflet f (pipeline uni t)) /\
  ((forall f, ~ doubled f t) -> untouched uni (pipeline uni t)).
Proof.
  split; [apply pipeline_no_sig|].
  split; [intros f; apply pipeline_no_iflet|].
  intros H. split; [apply pipeline_no_sig|].
  split; [now apply pipeline_no_assign|intros f; apply pipeline_no_iflet].
Qed.

Lemma pipeline_leaves_none_witness :
  untouched ascii_only (pipeline ascii_only fixture).
Proof.
  apply (proj2 (proj2 (pipeline_leaves_none ascii_only fixture))).
  intros f. apply no_doubled_check. destruct f; vm_compute; reflexivity.
Defined.

(** X3. The pipeline works on each line by itself: the image of two texts
    joined by a line feed is the two images joined by a line feed, so the
    lines of the output are the images of the lines of the input. *)
Theorem pipeline_line_by_line (uni : charset) :
  (forall s1 s2,
     pipeline uni (s1 ++ newline :: s2)
     = pipeline uni s1 ++ newline :: pipeline uni s2) /\
  (forall t, lines (pipeline uni t) = map (pipeline uni) (lines t)) /\
  (forall ls, pipeline uni (unlines ls) = unlines (map (pipeline uni) ls)).
Proof.
  split; [apply pipeline_nl|]. split; [apply pipeline_lines|].
  induction ls as [|l ls IH]; [apply pipeline_nil|].
  destruct ls as [|l' ls]; [reflexivity|].
  change (unlines (l :: l' :: ls)) with (l ++ newline :: unlines (l' :: ls)).
  rewrite pipeline_nl, IH. reflexivity.
Qed.

(** X4. The table behind [\w] matters only at the code points of the text
    from 128 on: two tables that agree there give the same output.  On a
    text of ASCII characters the output does not depend on the table. *)
Theorem pipeline_same_table (uni uni' : charset) (t : text) :
  same_on uni uni' t -> pipeline uni t = pipeline uni' t.
Proof.
  intros H. unfold pipeline. now rewrite (fix_signatures_same uni uni' t H).
Qed.

Lemma pipeline_same_table_witness :
  pipeline ascii_only fixture = pipeline (fun _ => true) fixture.
Proof.
  apply (pipeline_same_table ascii_only (fun _ => true) fixture).
  apply same_on_below. vm_compute. reflexivity.
Defined.

(** X5. Rule 1 only takes characters out: its output is a subsequence of
    its input, and it differs from the input exactly when a declaration
    [pub fn NAME(&mut self] occurs. *)
Theorem fix_signatures_takes_out (uni : charset) (t : text) :
  fix_signatures uni t `sublist_of` t /\
  (fix_signatures uni t = t <-> ~ has_sig uni t).
Proof.
  split.
  - apply (re_sub_deletes _ _ (sig_nonempty uni)), sig_deletes.
  - split; [|apply fix_signatures_id].
    intros H. rewrite <- H. apply fix_signatures_clears.
Qed.

(** X6. Rules 2 to 4 only put characters in: the input of each is a
    subsequence of its output, and the output differs from the input
    exactly when an assignment [self.F = Some(...)] of its field, closed on
    its line, occurs. *)
Theorem fix_assign_puts_in (f : field) (t : text) :
  t `sublist_of` fix_assign f t /\
  (fix_assign f t = t <-> ~ has_assign f t).
Proof.
  split.
  - apply (re_sub_inserts _ _ (assign_nonempty f)), assign_inserts.
  - split; [|apply fix_assign_id].
    intros H. apply fix_assign_same_length. now rewrite H.
Qed.

(** X7. The lengths: rule 1 makes the text 4 characters shorter for each
    replacement, each of rules 2 to 4 makes it 14 longer and each pattern of
    rule 5 makes it 17 longer; the replacements are counted as [re.subn]
    counts them, and there is none exactly when the pattern does not
    occur. *)
Theorem substitution_lengths (uni : charset) (f : field) (t : text) :
  (length (fix_signatures uni t) + 4 * re_count (sig_pattern uni) t = length t /\
   (re_count (sig_pattern uni) t = 0 <-> ~ has_sig uni t)) /\
  (length (fix_assign f t) = length t + 14 * re_count (assign_pattern f) t /\
   (re_count (assign_pattern f) t = 0 <-> ~ has_assign f t)) /\
  (length (fix_iflet f t) = length t + 17 * re_count (iflet_pattern f) t /\
   (re_count (iflet_pattern f) t = 0 <-> ~ has_iflet f t)).
Proof.
  split; [|split]; split.
  - apply (re_sub_shrinks _ _ (sig_nonempty uni)), sig_shrinks.
  - rewrite <- free_sig. apply re_count_zero, sig_nonempty.
  - apply (re_sub_grows _ _ (assign_nonempty f)), assign_adds.
  - rewrite <- free_assign. apply re_count_zero, assign_nonempty.
  - apply (re_sub_grows _ _ (iflet_nonempty f)), iflet_adds.
  - rewrite <- free_iflet. apply re_count_zero, iflet_nonempty.
Qed.

(** X8. Rules 2, 3 and 4 alike: for each of the three fields, where the
    text before holds no [self.F = Some(] and the argument [x] has neither
    [)] nor line feed, the first assignment becomes
    [*self.F.borrow_mut() = Some(x)] and the scan goes on behind its [)];
    when nothing behind it matches, nothing else changes. *)
Theorem fix_assign_first_of_field (f : field) (pre x post : text) :
  one_line x -> ~ In 41%N x -> ~ has_text (assign_prefix f) pre ->
  fix_assign f (pre ++ assign_prefix f ++ x ++ codes ")" ++ post)
  = pre ++ assign_head f ++ x ++ codes ")" ++ fix_assign f post /\
  (~ has_assign f post ->
   fix_assign f (pre ++ assign_prefix f ++ x ++ codes ")" ++ post)
   = pre ++ assign_head f ++ x ++ codes ")" ++ post).
Proof.
  intros Hx Hn Hpre.
  pose proof (fix_assign_first f pre x post Hx Hn Hpre) as H.
  split; [exact H|]. intros Hpost. now rewrite H, (fix_assign_id f post Hpost).
Qed.

Lemma fix_assign_first_of_field_witness :
  fix_assign content_bar
    (codes "  self.content_bar = Some(new_bar(n)); self.main_bar = Some(b);")
  = codes "  *self.content_bar.borrow_mut() = Some(new_bar(n)); self.main_bar = Some(b);".
Proof.
  pose proof (fix_assign_first_of_field content_bar (codes "  ")
                (codes "new_bar(n") (codes "); self.main_bar = Some(b);")) as H.
  destruct H as (_ & H).
  - reflexivity.
  - vm_compute. intuition discriminate.
  - apply no_text_check. vm_compute. reflexivity.
  - etransitivity; [|apply H].
    + vm_compute. reflexivity.
    + apply no_assign_check. vm_compute. reflexivity.
Defined.

(** X9. Rule 5 replaces a literal by a literal: for each of the three
    fields, the first [if let Some(pb) = &self.F] becomes
    [if let Some(pb) = self.F.borrow().as_ref()], whatever stands before
    and behind it, and the scan goes on behind it; the output differs from
    the input exactly when the literal occurs. *)
Theorem fix_iflet_first (f : field) (pre post : text) :
  ~ has_iflet f pre ->
  fix_iflet f (pre ++ iflet_text f ++ post)
  = pre ++ iflet_repl f ++ fix_iflet f post /\
  (~ has_iflet f post ->
   fix_iflet f (pre ++ iflet_text f ++ post) = pre ++ iflet_repl f ++ post) /\
  (forall t, fix_iflet f t = t <-> ~ has_iflet f t).
Proof.
  intros Hpre. pose proof (fix_iflet_hit f pre post Hpre) as H.
  split; [exact H|split].
  - intros Hpost. now rewrite H, (fix_iflet_id f post Hpost).
  - intros t. split; [|apply fix_iflet_id].
    intros E. rewrite <- E. apply fix_iflet_clears.
Qed.

Lemma fix_iflet_first_witness :
  fix_iflet main_bar (codes "while let Some(pb) = &self.main_bar2 {")
  = codes "while let Some(pb) = &self.main_bar2 {" /\
  fix_iflet main_bar (codes "} else if let Some(pb) = &self.main_bar2 {")
  = codes "} else if let Some(pb) = self.main_bar.borrow().as_ref()2 {".
Proof.
  split; [vm_compute; reflexivity|].
  pose proof (fix_iflet_first main_bar (codes "} else ") (codes "2 {")) as H.
  destruct H as (_ & H & _).
  - apply no_iflet_check. vm_compute. reflexivity.
  - etransitivity; [|apply H].
    + vm_compute. reflexivity.
    + apply no_iflet_check. vm_compute. reflexivity.
Defined.

(** X10. None of the seven patterns fits in fewer than 18 characters: a
    text that short, the empty text among them, comes out of the pipeline
    as it went in. *)
Theorem pipeline_short (uni : charset) (t : text) :
  length t < 18 -> pipeline uni t = t.
Proof.
  intros H. apply pipeline_id.
  - intros Hs. apply has_sig_length in Hs. lia.
  - intros f Hs. apply has_assign_length in Hs. lia.
  - intros f Hs. apply has_iflet_length in Hs. lia.
Qed.

Lemma pipeline_short_witness :
  pipeline ascii_only (codes "pub fn(&mut self)") = codes "pub fn(&mut self)".
Proof. apply (pipeline_short ascii_only). vm_compute. lia. Defined.


(** X12. A target that can be read but not written: the run ends with
    [PermissionError] when it opens the file for writing, with status 1,
    and leaves the file store and the standard output as they were. *)
Theorem locked_target_kept (uni : charset) (w : world) (f : file) :
  fs w !! target = Some f -> readable f = true -> writable f = false ->
  fst (main uni w) = inl PermissionError /\ run uni w = (1, w).
Proof.
  intros Hf Hr Hw.
  pose proof (main_write_error uni w (data f) _ _ (read_file_ok _ _ _ Hf Hr)
                (write_file_locked _ (pipeline uni (data f)) _ _ Hf Hw)) as Hm.
  unfold run. now rewrite Hm.
Qed.

Lemma locked_target_kept_witness :
  run ascii_only locked_world = (1, locked_world).
Proof.
  apply (locked_target_kept ascii_only locked_world
           (File (codes "pub fn a(&mut self)") true false)); reflexivity.
Defined.





(** X15. The three substitutions of rule 5 can be made in any order: for
    any two fields, rewriting [if let Some(pb) = &self.F] and then
    [if let Some(pb) = &self.G] gives what the other order gives. *)
Theorem fix_iflet_any_order (f g : field) (t : text) :
  fix_iflet f (fix_iflet g t) = fix_iflet g (fix_iflet f t).
Proof.
  destruct f, g; try reflexivity; now apply fix_iflet_comm_ne.
Qed.


